(** * gnob: the process pipeline engine of [internal/gnoblib/exec.go]

    A shallow embedding of the [Exec] type and of its construction,
    linking and lifecycle operations.

    Conventions of the embedding.
    - A Go pointer to a [bytes.Buffer] or to a decode target is an address
      into a store kept in the [World]; two pointers are the same buffer
      exactly when the addresses are equal.
    - [*Exec] and [*exec.Cmd] values are records.  [PipeOpt] and [Pipe2Opt]
      mutate the predecessor through its pointer and return a stage whose
      [prev] is that same pointer: here the returned stage carries the
      mutated predecessor in its [prev] field.
    - Operations that allocate or may panic run in the monad [M].
    - What the operating system and the packages [os], [os/exec],
      [encoding/json] decide (the order of a map range, whether a process
      spawns, how it ends, which branch of a [select] fires, what the JSON
      decoder returns) is supplied from outside: Section variables and the
      arguments [sel] and [unmarshal].
    - Go lets a struct type, its fields and a method share a name where
      Rocq does not: the fields [onExit] and [stderr] of [Exec] are
      [onExit_] and [stderr_buf] (those of [cmdOptions] keep their names),
      and the method [Exec] of [_cmd] is [Exec_]. *)

From stdpp Require Import gmap strings list fin_maps.

From Stdlib Require Import ZArith.

From Stdlib.Strings Require Import Byte Ascii.

Set Warnings "-register-all".

Local Open Scope Z_scope.

Local Open Scope nat_scope.

(** * The embedding *)

(** ** Errors *)

(** The error values the engine produces or inspects. *)
Inductive error :=
| ExitError (code : Z)            (* *exec.ExitError; [code] is ExitCode() *)
| errorString (msg : string)      (* any error that is not an exit-status error *)
| Canceled                        (* context.Canceled *)
| DeadlineExceeded                (* context.DeadlineExceeded *)
| joinError (errs : list error)   (* the result of errors.Join *)
| wrapError (args : list string) (err : error) (diag : list byte).
                                  (* fmt.Errorf("command failed (%v): %w\n%s", ...) *)

(** [errors.As(err, &exitErr)] with [exitErr : *exec.ExitError]: the first
    exit-status error in the tree of [err], depth first. *)
Fixpoint errors_As_ExitError (err : error) : option Z :=
  match err with
  | ExitError code => Some code
  | joinError errs =>
      (fix first (l : list error) : option Z :=
         match l with
         | [] => None
         | x :: rest =>
             match errors_As_ExitError x with
             | Some c => Some c
             | None => first rest
             end
         end) errs
  | wrapError _ e _ => errors_As_ExitError e
  | _ => None
  end.

(** [errors.Join(errs...)]: nil values are discarded, and the result is nil
    when nothing is left. *)
Definition errors_Join (errs : list (option error)) : option error :=
  match omap id errs with
  | [] => None
  | es => Some (joinError es)
  end.

(** ** Streams *)

(** Addresses of buffers and of decode targets, and file descriptors. *)
Definition addr := nat.

Definition fd := nat.

(** Values stored in an [io.Writer] field. *)
Inductive Writer :=
| WBuffer (a : addr)                 (* *bytes.Buffer: has no Close method *)
| WFile (f : fd)                     (* *os.File *)
| WUser (id : nat) (closer : bool)   (* another caller-supplied writer;
                                        [closer]: it implements io.Closer *)
| WMulti (ws : list Writer).         (* io.MultiWriter(ws...) *)

(** Induction on writers, through the list of a fan-out. *)
Fixpoint Writer_nested_ind (P : Writer → Prop)
    (Hbuf : ∀ a, P (WBuffer a)) (Hfile : ∀ f, P (WFile f))
    (Huser : ∀ id b, P (WUser id b))
    (Hmulti : ∀ ws, Forall P ws → P (WMulti ws)) (wr : Writer) : P wr :=
  match wr with
  | WBuffer a => Hbuf a
  | WFile f => Hfile f
  | WUser id b => Huser id b
  | WMulti ws =>
      Hmulti ws
        ((fix each (l : list Writer) : Forall P l :=
            match l with
            | [] => @List.Forall_nil Writer P
            | x :: rest =>
                @List.Forall_cons Writer P x rest
                  (Writer_nested_ind P Hbuf Hfile Huser Hmulti x) (each rest)
            end) ws)
  end.

(** Values stored in an [io.Reader] field. *)
Inductive Reader :=
| RUser (id : nat)
| RFile (f : fd)
| TeeReader (r : Reader) (w : Writer).   (* io.TeeReader(r, w) *)

(** Values stored in the [closers] of a stage. *)
Inductive Closer :=
| CFile (f : fd)
| CUser (id : nat).

(** The type assertion [w.(io.Closer)]. *)
Definition as_Closer (w : Writer) : option Closer :=
  match w with
  | WFile f => Some (CFile f)
  | WUser id true => Some (CUser id)
  | _ => None
  end.

(** ** exec.Cmd *)

(** A [context.Context] is named by a number; whether it is done is decided
    from outside, at each [select]. *)
Definition Ctx := nat.

(** The fields of [exec.Cmd] the engine reads or writes. *)
Record Cmd := mkCmd {
  Args : list string;
  Dir : string;
  Env : list string;
  Stdin : option Reader;
  Stdout : option Writer;
  Stderr : option Writer;
}.

Definition set_Dir (d : string) (c : Cmd) : Cmd :=
  mkCmd (Args c) d (Env c) (Stdin c) (Stdout c) (Stderr c).

Definition set_Env (e : list string) (c : Cmd) : Cmd :=
  mkCmd (Args c) (Dir c) e (Stdin c) (Stdout c) (Stderr c).

Definition set_Stdin (r : option Reader) (c : Cmd) : Cmd :=
  mkCmd (Args c) (Dir c) (Env c) r (Stdout c) (Stderr c).

Definition set_Stdout (w : option Writer) (c : Cmd) : Cmd :=
  mkCmd (Args c) (Dir c) (Env c) (Stdin c) w (Stderr c).

Definition set_Stderr (w : option Writer) (c : Cmd) : Cmd :=
  mkCmd (Args c) (Dir c) (Env c) (Stdin c) (Stdout c) w.

(** [exec.CommandContext(ctx, command, args...)]. *)
Definition CommandContext (ctx : Ctx) (command : string) (args : list string) : Cmd :=
  mkCmd (command :: args) "" [] None None None.

(** [fmt.Sprintf("%s=%s", k, v)]. *)
Definition Sprintf_kv (k v : string) : string := k +:+ "=" +:+ v.

(** The value a spawned process sees for the variable [k]: os/exec keeps,
    for each duplicated key of [Env], only the last value in the slice.  An
    entry is read as key and value around its first ['=']. *)
Fixpoint split_kv (s : string) : option (string * string) :=
  match s with
  | EmptyString => None
  | String c rest =>
      if decide (c = "="%char) then Some (EmptyString, rest)
      else (λ kv, (String c kv.1, kv.2)) <$> split_kv rest
  end.

Fixpoint env_lookup (env : list string) (k : string) : option string :=
  match env with
  | [] => None
  | kv :: rest =>
      match env_lookup rest k with
      | Some v => Some v
      | None =>
          match split_kv kv with
          | Some (k', v) => if decide (k' = k) then Some v else None
          | None => None
          end
      end
  end.

(** The key contains no ['=']. *)
Fixpoint plain_key (k : string) : bool :=
  match k with
  | EmptyString => true
  | String c rest => if decide (c = "="%char) then false else plain_key rest
  end.

(** What [cmd.Wait()] returns for a process that exits with status [c]:
    nil for status zero, an exit-status error that carries [c] otherwise. *)
Definition exit_status (c : Z) : option error :=
  if decide (c = 0%Z) then None else Some (ExitError c).

(** Whether writing to [wr] appends to the buffer at [a]. *)
Fixpoint writes_into (a : addr) (wr : Writer) : bool :=
  match wr with
  | WBuffer b => bool_decide (a = b)
  | WMulti ws =>
      (fix any (l : list Writer) : bool :=
         match l with
         | [] => false
         | x :: rest => writes_into a x || any rest
         end) ws
  | WFile _ | WUser _ _ => false
  end.

(** The same for an output field, which may be unset. *)
Definition stream_writes_into (a : addr) (o : option Writer) : bool :=
  match o with
  | Some wr => writes_into a wr
  | None => false
  end.

Section Engine.

(** The type of the values behind the [out any] pointers given to
    [WithStdoutJSONDecoder]. *)
Context {V : Type}.

(** ** The world outside the engine *)

(** The state of the process that hosts the engine, and of what it has
    done to the operating system. *)
Record World := mkWorld {
  environ : list string;           (* os.Environ() *)
  heap : gmap addr (list byte);    (* the contents of every bytes.Buffer *)
  next_addr : addr;                (* allocation pointer for buffers *)
  vars : gmap addr V;              (* the decode targets *)
  next_fd : fd;                    (* next free file descriptor *)
  max_fd : fd;                     (* descriptor limit of the process *)
  procs : list Cmd;                (* processes spawned so far, in order *)
  reaped : list Cmd;               (* processes waited for so far, in order *)
  closed : list Closer;            (* Close calls so far, in order *)
}.

Definition set_heap (h : gmap addr (list byte)) (w : World) : World :=
  mkWorld (environ w) h (next_addr w) (vars w) (next_fd w) (max_fd w)
          (procs w) (reaped w) (closed w).

Definition set_next_addr (a : addr) (w : World) : World :=
  mkWorld (environ w) (heap w) a (vars w) (next_fd w) (max_fd w)
          (procs w) (reaped w) (closed w).

Definition set_vars (vs : gmap addr V) (w : World) : World :=
  mkWorld (environ w) (heap w) (next_addr w) vs (next_fd w) (max_fd w)
          (procs w) (reaped w) (closed w).

Definition set_next_fd (f : fd) (w : World) : World :=
  mkWorld (environ w) (heap w) (next_addr w) (vars w) f (max_fd w)
          (procs w) (reaped w) (closed w).

Definition set_procs (ps : list Cmd) (w : World) : World :=
  mkWorld (environ w) (heap w) (next_addr w) (vars w) (next_fd w) (max_fd w)
          ps (reaped w) (closed w).

Definition set_reaped (ps : list Cmd) (w : World) : World :=
  mkWorld (environ w) (heap w) (next_addr w) (vars w) (next_fd w) (max_fd w)
          (procs w) ps (closed w).

Definition set_closed (cs : list Closer) (w : World) : World :=
  mkWorld (environ w) (heap w) (next_addr w) (vars w) (next_fd w) (max_fd w)
          (procs w) (reaped w) cs.

(** [buf.Bytes()]. *)
Definition Bytes (a : addr) (w : World) : list byte := default [] (heap w !! a).

(** [wr.Write(data)]: a buffer grows, a fan-out writes to each of its
    writers in turn; what is written to a file or to a writer of the
    caller leaves the store. *)
Fixpoint Write (wr : Writer) (data : list byte) (w : World) : World :=
  match wr with
  | WBuffer a => set_heap (<[a := Bytes a w ++ data]> (heap w)) w
  | WMulti ws =>
      (fix each (l : list Writer) (w : World) : World :=
         match l with
         | [] => w
         | x :: rest => each rest (Write x data w)
         end) ws w
  | WFile _ | WUser _ _ => w
  end.

(** ** Allocation and panics *)

(** A call returns a value and the new world, or panics. *)
Inductive Res (A : Type) :=
| Ok (a : A) (w : World)
| Panic (e : error).

Arguments Ok {A} a w.

Arguments Panic {A} e.

Definition M (A : Type) : Type := World → Res A.

#[export] Instance M_ret : MRet M := λ A a w, Ok a w.

#[export] Instance M_bind : MBind M := λ A B f m w,
  match m w with
  | Ok a w' => f a w'
  | Panic e => Panic e
  end.

(** [panic(err)]. *)
Definition panic {A} (e : error) : M A := λ _, Panic e.

(** A zero [bytes.Buffer] at a fresh address. *)
Definition new_Buffer : M addr := λ w,
  let a := next_addr w in
  Ok a (set_next_addr (S a) (set_heap (<[a := []]> (heap w)) w)).

(** [os.Pipe()]: the read end and the write end, or an error when the
    descriptor table is full. *)
Definition os_Pipe : M (fd * fd + error) := λ w,
  let n := next_fd w in
  if decide (n + 2 ≤ max_fd w)
  then Ok (inl (n, S n)) (set_next_fd (n + 2) w)
  else Ok (inr (errorString "too many open files")) w.

(** [os.Environ()]. *)
Definition os_Environ : M (list string) := λ w, Ok (environ w) w.

(** ** Option set *)

(** [func()]: a callback acts on the world and returns nothing. *)
Definition func : Type := World → World.

(** [type cmdOptions struct]. *)
Record cmdOptions := mkOptions {
  noInheritEnv : bool;
  envVars : gmap string string;
  workingDir : string;
  stdout : option Writer;
  stderr : option Writer;
  stdin : option Reader;
  onExit : list func;
}.

(** [var o cmdOptions]. *)
Definition zero_cmdOptions : cmdOptions :=
  mkOptions false ∅ "" None None None [].

(** [ExecOption]: a value whose [apply] mutates the options record. *)
Definition ExecOption : Type := cmdOptions → cmdOptions.

(** [opt.apply(&opts)]. *)
Definition apply (opt : ExecOption) (opts : cmdOptions) : cmdOptions := opt opts.

(** The order in which a [for k, v := range m] visits a map: fixed by the
    Go runtime at each run, not by the program. *)
Variable map_range : gmap string string → list (string * string).

(** The option constructors; [WithEnvVars] inserts the bindings of [env]
    in the order of the range. *)
Definition WithStdout (out : Writer) : ExecOption := λ opts,
  mkOptions (noInheritEnv opts) (envVars opts) (workingDir opts)
            (Some out) (stderr opts) (stdin opts) (onExit opts).

Definition WithStderr (err : Writer) : ExecOption := λ opts,
  mkOptions (noInheritEnv opts) (envVars opts) (workingDir opts)
            (stdout opts) (Some err) (stdin opts) (onExit opts).

Definition WithStdin (r : Reader) : ExecOption := λ opts,
  mkOptions (noInheritEnv opts) (envVars opts) (workingDir opts)
            (stdout opts) (stderr opts) (Some r) (onExit opts).

Definition WithDir (dir : string) : ExecOption := λ opts,
  mkOptions (noInheritEnv opts) (envVars opts) dir
            (stdout opts) (stderr opts) (stdin opts) (onExit opts).

Definition WithEnvVars (env : gmap string string) : ExecOption := λ opts,
  mkOptions (noInheritEnv opts)
            (foldl (λ m kv, <[kv.1 := kv.2]> m) (envVars opts) (map_range env))
            (workingDir opts) (stdout opts) (stderr opts) (stdin opts) (onExit opts).

Definition WithNoInheritEnv (b : bool) : ExecOption := λ opts,
  mkOptions b (envVars opts) (workingDir opts)
            (stdout opts) (stderr opts) (stdin opts) (onExit opts).

Definition ExecOptions (opts : list ExecOption) : ExecOption := λ co,
  foldl (λ co o, apply o co) co opts.

(** The callback registered by [WithStdoutJSONDecoder]:
    [_ = json.Unmarshal(buf.Bytes(), out)].  [unmarshal data v] is what the
    decoder leaves in a target holding [v], and the error it returns; the
    error is dropped here. *)
Definition decode_callback (unmarshal : list byte → V → V * option error)
    (buf out : addr) : func := λ w,
  match vars w !! out with
  | Some v => set_vars (<[out := (unmarshal (Bytes buf w) v).1]> (vars w)) w
  | None => w
  end.

(** [WithStdoutJSONDecoder(out)]: [var buf bytes.Buffer] is allocated by
    the constructor, and the returned option closes over it. *)
Definition WithStdoutJSONDecoder (unmarshal : list byte → V → V * option error)
    (out : addr) : M ExecOption :=
  buf ← new_Buffer;
  mret (λ opts,
    mkOptions (noInheritEnv opts) (envVars opts) (workingDir opts)
              (Some (WBuffer buf)) (stderr opts) (stdin opts)
              (onExit opts ++ [decode_callback unmarshal buf out])).

(** The options record [ExecOpt] works with:
    [var o cmdOptions; if opt != nil { opt.apply(&o) }]. *)
Definition options_of (opt : option ExecOption) : cmdOptions :=
  match opt with
  | Some f => apply f zero_cmdOptions
  | None => zero_cmdOptions
  end.

(** The entry of [Env] for a binding of [envVars]. *)
Definition entry (kv : string * string) : string := Sprintf_kv kv.1 kv.2.

(** ** Stages *)

(** [type Exec struct]. *)
Inductive Exec := mkExec {
  prev : option Exec;
  ctx : Ctx;
  cmd : Cmd;
  stderr_buf : addr;      (* the address of the field [stderr bytes.Buffer] *)
  closers : list Closer;
  onExit_ : list func;    (* the field [onExit] of [Exec] *)
  exitCodes : list Z;
}.

Definition set_cmd (c : Cmd) (e : Exec) : Exec :=
  mkExec (prev e) (ctx e) c (stderr_buf e) (closers e) (onExit_ e) (exitCodes e).

Definition set_closers (cs : list Closer) (e : Exec) : Exec :=
  mkExec (prev e) (ctx e) (cmd e) (stderr_buf e) cs (onExit_ e) (exitCodes e).

Definition set_exitCodes (codes : list Z) (e : Exec) : Exec :=
  mkExec (prev e) (ctx e) (cmd e) (stderr_buf e) (closers e) (onExit_ e) codes.

(** [&Exec{prev: p, ctx: c, cmd: k, onExit: fs}]: a new stage; its
    diagnostic buffer is a zero buffer of its own. *)
Definition new_Exec (p : option Exec) (c : Ctx) (k : Cmd) (fs : list func) : M Exec :=
  a ← new_Buffer;
  mret (mkExec p c k a [] fs []).

(** [func (c _cmd) ExecOpt(ctx, opt, command, args...) *Exec]. *)
Definition ExecOpt (ctx : Ctx) (opt : option ExecOption)
    (command : string) (args : list string) : M Exec :=
  let o := match opt with
           | Some f => apply f zero_cmdOptions
           | None => zero_cmdOptions
           end in
  let execCmd := CommandContext ctx command args in
  let execCmd := if decide (workingDir o ≠ "")
                 then set_Dir (workingDir o) execCmd else execCmd in
  inherited ← os_Environ;
  let environ := [] in
  let environ := if noInheritEnv o then environ else environ ++ inherited in
  let environ := if decide (0 < size (envVars o))
                 then foldl (λ env kv, env ++ [Sprintf_kv kv.1 kv.2])
                            environ (map_range (envVars o))
                 else environ in
  let execCmd := set_Stdin (stdin o) execCmd in
  let execCmd := set_Stdout (stdout o) execCmd in
  let execCmd := set_Stderr (stderr o) execCmd in
  let execCmd := set_Env environ execCmd in
  new_Exec None ctx execCmd (onExit o).

(** [func (c _cmd) Exec(ctx, command, args...) *Exec]. *)
Definition Exec_ (ctx : Ctx) (command : string) (args : list string) : M Exec :=
  ExecOpt ctx None command args.

(** [c.StdoutPipe()] of os/exec: refused when [Stdout] is set; otherwise
    the write end of a new pipe becomes [Stdout] and the read end is
    returned. *)
Definition StdoutPipe (c : Cmd) : M (Cmd * (Reader + error)) :=
  match Stdout c with
  | Some _ => mret (c, inr (errorString "exec: Stdout already set"))
  | None =>
      p ← os_Pipe;
      match p with
      | inl (pr, pw) => mret (set_Stdout (Some (WFile pw)) c, inl (RFile pr))
      | inr err => mret (c, inr err)
      end
  end.

(** [c.StderrPipe()] of os/exec, likewise. *)
Definition StderrPipe (c : Cmd) : M (Cmd * (Reader + error)) :=
  match Stderr c with
  | Some _ => mret (c, inr (errorString "exec: Stderr already set"))
  | None =>
      p ← os_Pipe;
      match p with
      | inl (pr, pw) => mret (set_Stderr (Some (WFile pw)) c, inl (RFile pr))
      | inr err => mret (c, inr err)
      end
  end.

(** Induction along the [prev] links. *)
Fixpoint Exec_prev_ind (P : Exec → Prop)
    (Hhead : ∀ c k a cs fs codes, P (mkExec None c k a cs fs codes))
    (Hlink : ∀ p c k a cs fs codes, P p → P (mkExec (Some p) c k a cs fs codes))
    (e : Exec) : P e :=
  match e with
  | mkExec None c k a cs fs codes => Hhead c k a cs fs codes
  | mkExec (Some p) c k a cs fs codes =>
      Hlink p c k a cs fs codes (Exec_prev_ind P Hhead Hlink p)
  end.

(** ** Chain linking *)

(** [func (e *Exec) PipeOpt(opt, command, args...) *Exec].  The stage [next]
    that [ExecOpt] made gives its [cmd] to the stage returned, which is a
    new [&Exec{prev: e, ctx: e.ctx, cmd: next.cmd}]. *)
Definition PipeOpt (e : Exec) (opt : option ExecOption)
    (command : string) (args : list string) : M Exec :=
  next ← ExecOpt (ctx e) opt command args;
  match Stdout (cmd e) with
  | Some out =>
      let e := match as_Closer out with
               | Some c => set_closers (closers e ++ [c]) e
               | None => e
               end in
      p ← os_Pipe;
      match p with
      | inr err => panic err
      | inl (pr, pw) =>
          let e := set_closers (closers e ++ [CFile pw]) e in
          let tr := TeeReader (RFile pr) out in
          let e := set_cmd (set_Stdout (Some (WFile pw)) (cmd e)) e in
          let next := set_cmd (set_Stdin (Some tr) (cmd next)) next in
          let next := set_closers (closers next ++ [CFile pr]) next in
          new_Exec (Some e) (ctx e) (cmd next) []
      end
  | None =>
      '(c, r) ← StdoutPipe (cmd e);
      match r with
      | inr err => panic err
      | inl pr =>
          let e := set_cmd c e in
          let next := set_cmd (set_Stdin (Some pr) (cmd next)) next in
          new_Exec (Some e) (ctx e) (cmd next) []
      end
  end.

(** [func (e *Exec) Pipe(command, args...) *Exec]. *)
Definition Pipe (e : Exec) (command : string) (args : list string) : M Exec :=
  PipeOpt e None command args.

(** [func (e *Exec) Pipe2Opt(opt, command, args...) *Exec]: [PipeOpt] on
    the stderr of the predecessor. *)
Definition Pipe2Opt (e : Exec) (opt : option ExecOption)
    (command : string) (args : list string) : M Exec :=
  next ← ExecOpt (ctx e) opt command args;
  match Stderr (cmd e) with
  | Some out =>
      let e := match as_Closer out with
               | Some c => set_closers (closers e ++ [c]) e
               | None => e
               end in
      p ← os_Pipe;
      match p with
      | inr err => panic err
      | inl (pr, pw) =>
          let e := set_closers (closers e ++ [CFile pw]) e in
          let tr := TeeReader (RFile pr) out in
          let e := set_cmd (set_Stderr (Some (WFile pw)) (cmd e)) e in
          let next := set_cmd (set_Stdin (Some tr) (cmd next)) next in
          let next := set_closers (closers next ++ [CFile pr]) next in
          new_Exec (Some e) (ctx e) (cmd next) []
      end
  | None =>
      '(c, r) ← StderrPipe (cmd e);
      match r with
      | inr err => panic err
      | inl pr =>
          let e := set_cmd c e in
          let next := set_cmd (set_Stdin (Some pr) (cmd next)) next in
          new_Exec (Some e) (ctx e) (cmd next) []
      end
  end.

(** [func (e *Exec) Pipe2(command, args...) *Exec]. *)
Definition Pipe2 (e : Exec) (command : string) (args : list string) : M Exec :=
  Pipe2Opt e None command args.

(** The closers a destination adds to the predecessor of a tee link. *)
Definition closer_list (w : Writer) : list Closer :=
  match as_Closer w with
  | Some c => [c]
  | None => []
  end.

(** ** Lifecycle control *)

(** The stages reached from [e] by the [prev] links, [e] first: the slice
    built by [for this != nil { chain = append(chain, this); this = this.prev }]. *)
Fixpoint chain_of (e : Exec) : list Exec :=
  match e with
  | mkExec p _ _ _ _ _ _ =>
      e :: match p with
           | Some e' => chain_of e'
           | None => []
           end
  end.

(** What [c.Start()] of os/exec returns for the process description [c]:
    nil when the process is spawned. *)
Variable start_process : Cmd → option error.

(** [for i := len(chain) - 1; i >= 0; i-- { if err := chain[i].Start(); ... }],
    given the commands in the order of the visit. *)
Fixpoint start_loop (cs : list Cmd) (w : World) : option error * World :=
  match cs with
  | [] => (None, w)
  | c :: rest =>
      match start_process c with
      | Some err => (Some err, w)
      | None => start_loop rest (set_procs (procs w ++ [c]) w)
      end
  end.

(** The first statement of [Start]:
    [if this.cmd.Stderr == nil { this.cmd.Stderr = &this.stderr }
     else { this.cmd.Stderr = io.MultiWriter(&this.stderr, e.cmd.Stderr) }]. *)
Definition wire_stderr (this : Exec) : Exec :=
  match Stderr (cmd this) with
  | None => set_cmd (set_Stderr (Some (WBuffer (stderr_buf this))) (cmd this)) this
  | Some err =>
      set_cmd (set_Stderr (Some (WMulti [WBuffer (stderr_buf this); err])) (cmd this)) this
  end.

(** [func (e *Exec) Start() error]: the error, the handle as [Start] left
    it, and the new world. *)
Definition Start (e : Exec) (w : World) : option error * Exec * World :=
  let this := wire_stderr e in
  let chain := cmd <$> chain_of this in
  let '(err, w) := start_loop (reverse chain) w in
  (err, this, w).

(** How a process ends: what it wrote to its standard output and standard
    error, and what [cmd.Wait()] returns. *)
Record Exit := mkExit {
  out_bytes : list byte;
  err_bytes : list byte;
  status : option error;
}.

(** The branch of the [select] taken for a stage: the context is done, with
    [ctx.Err()], or the worker delivered the end of the process.  When both
    are ready Go takes either, so the branch is given from outside.  On
    the first branch [Wait] returns at once; what the worker, left behind
    in its goroutine, still does is not part of the result of [Wait]. *)
Inductive Select :=
| CtxDone (err : error)
| Received (x : Exit).

(** [c.Wait()] of os/exec on a process that ends as [x]: the copying of
    its output into the writers has completed when it returns. *)
Definition cmd_Wait (c : Cmd) (x : Exit) (w : World) : World :=
  let w := match Stdout c with
           | Some wr => Write wr (out_bytes x) w
           | None => w
           end in
  let w := match Stderr c with
           | Some wr => Write wr (err_bytes x) w
           | None => w
           end in
  set_reaped (reaped w ++ [c]) w.

(** The worker of a stage: close its closers, then wait for the process. *)
Definition worker (s : Exec) (x : Exit) (w : World) : World :=
  let w := set_closed (closed w ++ closers s) w in
  cmd_Wait (cmd s) x w.

(** The exit code recorded for what [cmd.Wait()] returned. *)
Definition recorded_code (err : option error) : Z :=
  match err with
  | Some err =>
      match errors_As_ExitError err with
      | Some code => code
      | None => 0%Z
      end
  | None => 0%Z
  end.

(** The body of [for i := len(chain) - 1; i >= 0; i--] in [Wait], given the
    pairs [(i, chain[i])] in the order of the visit.  [sel i] is the branch
    of the [select] taken at index [i].  The result is the error returned
    from inside the loop, or the two accumulators. *)
Fixpoint wait_loop (sel : nat → Select) (stages : list (nat * Exec))
    (waitErrs : list (option error)) (exitCodes : list Z) (w : World)
    : (error + list (option error) * list Z) * World :=
  match stages with
  | [] => (inr (waitErrs, exitCodes), w)
  | (i, s) :: rest =>
      match sel i with
      | CtxDone err => (inl err, w)
      | Received x =>
          let w := worker s x w in
          let w := foldl (λ w f, f w) w (onExit_ s) in
          let waitErrs := waitErrs ++ [status x] in
          wait_loop sel rest waitErrs (exitCodes ++ [recorded_code (status x)]) w
      end
  end.

(** [chain[len-1], ..., chain[0]] with their indices. *)
Definition visit_order (chain : list Exec) : list (nat * Exec) :=
  reverse (imap (λ i s, (i, s)) chain).

(** [func (e *Exec) Wait() error]: the error, the handle as [Wait] left it,
    and the new world. *)
Definition Wait (sel : nat → Select) (e : Exec) (w : World)
    : option error * Exec * World :=
  let chain := chain_of e in
  match wait_loop sel (visit_order chain) [] [] w with
  | (inl err, w) => (Some err, e, w)
  | (inr (waitErrs, exitCodes), w) =>
      let e := set_exitCodes exitCodes e in
      match errors_Join waitErrs with
      | Some err =>
          (Some (wrapError (Args (cmd e)) err (Bytes (stderr_buf e) w)), e, w)
      | None => (None, e, w)
      end
  end.

(** [func (e *Exec) Run() error]. *)
Definition Run (sel : nat → Select) (e : Exec) (w : World)
    : option error * Exec * World :=
  match Start e w with
  | (Some err, e, w) => (Some err, e, w)
  | (None, e, w) => Wait sel e w
  end.

(** [func (e *Exec) ExitCode() int] and [func (e *Exec) ExitCodes() []int]. *)
Definition ExitCode (e : Exec) : Z :=
  if decide (length (exitCodes e) = 0) then (-1)%Z
  else default 0%Z (exitCodes e !! (length (exitCodes e) - 1)).

Definition ExitCodes (e : Exec) : list Z := exitCodes e.

(** ** Notions used by the properties *)

(** The stages in head-to-tail order: the stage without predecessor first. *)
Definition head_to_tail (e : Exec) : list Exec := reverse (chain_of e).

(** The stage's stderr is wired to its diagnostic buffer: the buffer alone
    when the caller supplied no stderr, a fan-out to the buffer and to the
    caller's destination otherwise. *)
Definition wired (before after : Exec) : Prop :=
  Stderr (cmd after) =
    Some match Stderr (cmd before) with
         | None => WBuffer (stderr_buf before)
         | Some dest => WMulti [WBuffer (stderr_buf before); dest]
         end.

(** [Wait] returned from inside its loop, on the branch of the done
    context. *)
Definition cut_short (sel : nat → Select) (e : Exec) (w : World) : Prop :=
  ∃ err, (wait_loop sel (visit_order (chain_of e)) [] [] w).1 = inl err.

(** The handles on which no [Wait] has run to completion: those returned
    by the construction and linking calls, and what [Start] or a [Wait]
    that was cut short makes of them. *)
Inductive never_waited : Exec → Prop :=
| nw_ExecOpt c opt command args w e w' :
    ExecOpt c opt command args w = Ok e w' → never_waited e
| nw_PipeOpt p opt command args w e w' :
    PipeOpt p opt command args w = Ok e w' → never_waited e
| nw_Pipe2Opt p opt command args w e w' :
    Pipe2Opt p opt command args w = Ok e w' → never_waited e
| nw_Start e w :
    never_waited e → never_waited (Start e w).1.2
| nw_Wait sel e w :
    never_waited e → cut_short sel e w → never_waited (Wait sel e w).1.2.

(** The stage without its callbacks, all along the chain. *)
Fixpoint strip_onExit (e : Exec) : Exec :=
  match e with
  | mkExec p c k a cs _ codes =>
      mkExec match p with
             | Some e' => Some (strip_onExit e')
             | None => None
             end c k a cs [] codes
  end.

(** The callback is one registered by [WithStdoutJSONDecoder], for some
    decoder, buffer and target. *)
Definition is_decode (f : func) : Prop :=
  ∃ unmarshal buf out, f = decode_callback unmarshal buf out.

(** The two worlds differ at most in the decode targets. *)
Definition same_but_vars (w1 w2 : World) : Prop := ∃ vs, w1 = set_vars vs w2.

(** Neither output of the stage is written into the buffer at [a]. *)
Definition spares (a : addr) (s : Exec) : Prop :=
  stream_writes_into a (Stdout (cmd s)) = false
  ∧ stream_writes_into a (Stderr (cmd s)) = false.

End Engine.

Arguments Ok {V A} a w.
Arguments Panic {V A} e.

(** ** Concrete chains *)

(** A map range in the order of [map_to_list]. *)
Definition range_sorted : gmap string string → list (string * string) := map_to_list.

(** Every spawn succeeds. *)
Definition spawn_all : Cmd → option error := λ _, None.

(** Every spawn succeeds but that of the command named [nm]. *)
Definition spawn_but (nm : string) : Cmd → option error :=
  λ k, if decide (head (Args k) = Some nm)
       then Some (errorString "executable file not found in $PATH")
       else None.

(** The bytes of a string literal. *)
Definition bytes_of (s : string) : list byte := String.list_byte_of_string s.

(** Two decoders into a target that holds bytes: the first stores what it
    is given (as decoding into a [json.RawMessage] does), the second
    rejects everything. *)
Definition keep_raw : list byte → list byte → list byte * option error :=
  λ data _, (data, None).

Definition reject : list byte → list byte → list byte * option error :=
  λ _ v, (v, Some (errorString "invalid character")).

(** The decode target is at address 100 and holds nothing yet; descriptors
    0 to 2 are taken. *)
Definition world0 : @World (list byte) :=
  mkWorld ["PATH=/bin"; "X=0"] ∅ 0 {[100 := []]} 3 1024 [] [] [].

(** A stage to stand for the result of a call that panicked. *)
Definition no_stage : @Exec (list byte) :=
  mkExec None 0 (CommandContext 0 "" []) 0 [] [] [].

(** The stage and the world an [M] computation ends with, from [world0]. *)
Definition built (m : M (@Exec (list byte))) : Exec * World :=
  match m world0 with
  | Ok e w => (e, w)
  | Panic _ => (no_stage, world0)
  end.

(** Every [select] receives a process that wrote nothing and exited with
    the status given for its index. *)
Definition exits (codes : nat → Z) : nat → Select :=
  λ i, Received (mkExit [] [] (exit_status (codes i))).

(** Every [select] receives a process that wrote [s] and exited with
    status 0. *)
Definition prints (s : string) : nat → Select :=
  λ _, Received (mkExit (bytes_of s) [] None).

(** [Cmd.ExecOpt(ctx, Cmd.WithStdout(f), "gen").Pipe("wc", "-c")], where [f]
    is a writer of the caller that implements [io.Closer]. *)
Definition capture_then_pipe : M (@Exec (list byte)) :=
  p ← ExecOpt range_sorted 1 (Some (WithStdout (WUser 7 true))) "gen" [];
  PipeOpt range_sorted p None "wc" ["-c"].

(** The same link over stderr, with [Pipe2Opt]. *)
Definition capture_then_pipe2 : M (@Exec (list byte)) :=
  p ← ExecOpt range_sorted 1 (Some (WithStderr (WUser 7 true))) "gen" [];
  Pipe2Opt range_sorted p None "wc" ["-c"].

(** [Cmd.Exec(ctx, "cat", "example.json").PipeOpt(Cmd.WithStdoutJSONDecoder(&obj), "jq", ".")],
    the chain of the target [out.json] in examples/general/main.go. *)
Definition decode_in_pipe : M (@Exec (list byte)) :=
  opt ← WithStdoutJSONDecoder keep_raw 100;
  p ← Exec_ range_sorted 1 "cat" ["example.json"];
  PipeOpt range_sorted p (Some opt) "jq" ["."].

(** The same option on a stage made by [ExecOpt]. *)
Definition decode_at_head : M (@Exec (list byte)) :=
  opt ← WithStdoutJSONDecoder keep_raw 100;
  ExecOpt range_sorted 1 (Some opt) "jq" ["."].

(** The process at index 0, the tail, writes [{}] and exits with status 0;
    the others write nothing. *)
Definition tail_prints : nat → Select :=
  λ i, Received (mkExit (if decide (i = 0) then bytes_of "{}" else []) [] None).

(** [Cmd.Exec(ctx, "a").Pipe("b")]. *)
Definition two_stages : M (@Exec (list byte)) :=
  p ← Exec_ range_sorted 1 "a" [];
  Pipe range_sorted p "b" [].

(** One option from one call of [WithStdoutJSONDecoder], given to two
    stages. *)
Definition shared_option : M (ExecOption * (@Exec (list byte) * @Exec (list byte))) :=
  opt ← WithStdoutJSONDecoder keep_raw 100;
  a ← ExecOpt range_sorted 1 (Some opt) "one" [];
  b ← ExecOpt range_sorted 1 (Some opt) "two" [];
  mret (opt, (a, b)).

(** The head of [two_stages] exits with status 1 and the tail with 0. *)
Definition head_fails : nat → Select :=
  exits (λ i, if decide (i = 1) then 1%Z else 0%Z).

(** The head of [two_stages] is received; the context is past its
    deadline at the [select] of the tail. *)
Definition deadline_at_tail : nat → Select :=
  λ i, if decide (i = 0) then CtxDone DeadlineExceeded
       else Received (mkExit [] [] None).

(** The context is cancelled at every [select]. *)
Definition cancelled : nat → Select := λ _, CtxDone Canceled.

(** [Cmd.ExecOpt(ctx, Cmd.WithEnvVars({"X": "1"}), "printenv")] in a process
    whose environment is [PATH=/bin], [X=0]. *)
Definition with_X : ExecOption (V := list byte) :=
  WithEnvVars range_sorted {["X" := "1"]}.

(** A stage whose decoder rejects everything; its process prints [{] and
    exits with status 0. *)
Definition reject_at_head : M (@Exec (list byte)) :=
  opt ← WithStdoutJSONDecoder reject 100;
  ExecOpt range_sorted 1 (Some opt) "jq" ["."].

(** The reader a link gives to the successor: through a tee into the
    destination when the output of the predecessor was set, the read end
    alone otherwise. *)
Definition link_reader (dest : option Writer) (pr : fd) : Reader :=
  match dest with
  | Some out => TeeReader (RFile pr) out
  | None => RFile pr
  end.

(** The closers a link adds to the predecessor. *)
Definition link_closers (dest : option Writer) (pw : fd) : list Closer :=
  match dest with
  | Some out => closer_list out ++ [CFile pw]
  | None => []
  end.

(** * Timestamps of files: [internal/gnoblib/files.go] *)

Module Files.

(** A [time.Time] is the instant it names, counted from the zero time
    [time.Time{}]; [t.After(u)] compares instants. *)
Definition Time := Z.

Definition zero_Time : Time := 0%Z.

Definition After (t u : Time) : bool := bool_decide (u < t)%Z.

Section Files.

(** The state of the file system. *)
Context {FS : Type}.

(** [os.Stat(file)]: the modification time of the file, or an error. *)
Variable os_Stat : FS → string → Time + error.

(** [filepath.Glob(pattern)]: the matching paths, or an error for a
    malformed pattern. *)
Variable filepath_Glob : FS → string → list string + error.

(** [func (f _files) Exists(path string) bool]. *)
Definition Exists (fs : FS) (path : string) : bool :=
  match os_Stat fs path with
  | inl _ => true
  | inr _ => false
  end.

(** [func (f _files) modTime(file string) time.Time]. *)
Definition modTime (fs : FS) (file : string) : Time :=
  match os_Stat fs file with
  | inl t => t
  | inr _ => zero_Time
  end.

(** The inner loop of [LatestTimestamp], over the matches of one pattern. *)
Fixpoint latest_matches (fs : FS) (matches : list string) (maxTs : Time)
    (matchedAny : bool) : Time * bool :=
  match matches with
  | [] => (maxTs, matchedAny)
  | p :: rest =>
      let ts := modTime fs p in
      let matchedAny := true in
      let maxTs := if After ts maxTs then ts else maxTs in
      latest_matches fs rest maxTs matchedAny
  end.

(** The outer loop of [LatestTimestamp], over the patterns; [None] when it
    is left by [return time.Time{}] on a glob error. *)
Fixpoint latest_patterns (fs : FS) (files : list string) (maxTs : Time)
    (matchedAny : bool) : option (Time * bool) :=
  match files with
  | [] => Some (maxTs, matchedAny)
  | pattern :: rest =>
      match filepath_Glob fs pattern with
      | inr _ => None
      | inl matches =>
          let '(maxTs, matchedAny) := latest_matches fs matches maxTs matchedAny in
          latest_patterns fs rest maxTs matchedAny
      end
  end.

(** [func (f _files) LatestTimestamp(files ...string) time.Time]. *)
Definition LatestTimestamp (fs : FS) (files : list string) : Time :=
  match latest_patterns fs files zero_Time false with
  | None => zero_Time
  | Some (maxTs, matchedAny) => if negb matchedAny then zero_Time else maxTs
  end.

(** [func (f _files) TargetNeedsUpdate(target string, sources ...string) bool]. *)
Definition TargetNeedsUpdate (fs : FS) (target : string) (sources : list string) : bool :=
  let a := modTime fs target in
  let b := LatestTimestamp fs sources in
  After b a.

(** [func (_makefile) FileUpToDate(target, sources...)] of targets.go: the function returned does not look at its argument, it
    reads the file system. *)
Definition FileUpToDate (target : string) (sources : list string) : FS → bool :=
  λ fs, negb (TargetNeedsUpdate fs target sources).

(** The paths the patterns match, pattern after pattern, when every
    pattern is well formed. *)
Fixpoint all_matches (fs : FS) (files : list string) : option (list string) :=
  match files with
  | [] => Some []
  | pattern :: rest =>
      match filepath_Glob fs pattern with
      | inr _ => None
      | inl matches => (λ more, matches ++ more) <$> all_matches fs rest
      end
  end.

End Files.

(** A file system for examples: the files with their modification times;
    a pattern matches the file of that name, and the pattern ["["] is
    malformed. *)
Definition disk := gmap string Time.

Definition disk_Stat (fs : disk) (file : string) : Time + error :=
  match fs !! file with
  | Some t => inl t
  | None => inr (errorString "no such file or directory")
  end.

Definition disk_Glob (fs : disk) (pattern : string) : list string + error :=
  if decide (pattern = "[") then inr (errorString "syntax error in pattern")
  else match fs !! pattern with
       | Some _ => inl [pattern]
       | None => inl []
       end.

Definition disk0 : disk := {[ "a.go" := 5%Z; "b.go" := 9%Z; "gnob" := 7%Z ]}.

End Files.

(** * Named targets: [internal/gnoblib/targets.go] *)

Module Makefile.

(** The calls made to the global [Logger]. *)
Inductive Level := LevelDebug | LevelInfo | LevelWarn | LevelError.

Inductive AttrValue :=
| AString (s : string)
| AError (e : error)
| AInt (n : nat).

Record LogCall := mkLog {
  level : Level;
  message : string;
  attrs : list (string * AttrValue);
}.

(** How a call ends: it returns an error value (nil or not), or the
    program panics. *)
Inductive Outcome :=
| Return (err : option error)
| GoPanic.

Section Targets.

(** What the bodies of the targets act on. *)
Context {St : Type}.

Record MWorld := mkMWorld {
  state : St;
  logged : list LogCall;   (* the calls to the logger so far, in order *)
}.

Definition log (l : Level) (msg : string) (kvs : list (string * AttrValue))
    (w : MWorld) : MWorld :=
  mkMWorld (state w) (logged w ++ [mkLog l msg kvs]).

(** [type MakeTarget struct].  [UpToDate] and [Body] are given by what they
    return and what they do to the world, the targets they run through
    [mf.Depend] included; a nil function is [None]. *)
Record MakeTarget := mkTarget {
  Name : string;
  Desc : string;
  LongDesc : string;
  Hidden : bool;
  Default : bool;
  UpToDate : option (MWorld → bool * MWorld);
  Body : option (MWorld → option error * MWorld);
}.

(** [type Makefile struct]; the targets stand for the pointers to them. *)
Record Makefile := mkMakefile {
  name : string;
  args : list string;
  commandArgs : list string;
  targets : list MakeTarget;
  defaultTarget : nat;
}.

Definition set_commandArgs (l : list string) (mf : Makefile) : Makefile :=
  mkMakefile (name mf) (args mf) l (targets mf) (defaultTarget mf).

Definition set_targets (ts : list MakeTarget) (mf : Makefile) : Makefile :=
  mkMakefile (name mf) (args mf) (commandArgs mf) ts (defaultTarget mf).

Definition set_defaultTarget (i : nat) (mf : Makefile) : Makefile :=
  mkMakefile (name mf) (args mf) (commandArgs mf) (targets mf) i.

(** [strings.EqualFold], [strings.ToLower] and [slices.SortFunc]. *)
Variable strings_EqualFold : string → string → bool.
Variable strings_ToLower : string → string.
Variable slices_SortFunc :
  (MakeTarget → MakeTarget → Z) → list MakeTarget → list MakeTarget.

(** [strings.Compare]: the order of the bytes. *)
Definition strings_Compare (a b : string) : Z :=
  match String.compare a b with
  | Lt => (-1)%Z
  | Eq => 0%Z
  | Gt => 1%Z
  end.

(** The call [mt.Body(ctx, mf)] of [exec] and what follows it; calling a
    nil function panics. *)
Definition run_body (mt : MakeTarget) (w : MWorld) : Outcome * MWorld :=
  match Body mt with
  | None => (GoPanic, w)
  | Some body =>
      match body w with
      | (Some err, w) =>
          (Return (Some err),
           log LevelError "[gnob:makefile] error executing target"
             [("target", AString (Name mt)); ("error", AError err)] w)
      | (None, w) => (Return None, w)
      end
  end.

(** [func (mt *MakeTarget) exec(ctx, mf) error]. *)
Definition exec (mt : MakeTarget) (w : MWorld) : Outcome * MWorld :=
  let w := log LevelDebug "[gnob:makefile] execute target"
             [("target", AString (Name mt))] w in
  match UpToDate mt with
  | None => run_body mt w
  | Some upToDate =>
      let '(b, w) := upToDate w in
      if negb b then run_body mt w
      else
        (Return None,
         log LevelInfo "[gnob:makefile] target is up-to-date"
           [("target", AString (Name mt))] w)
  end.

(** The loop of [Find]. *)
Fixpoint find_target (nm : string) (ts : list MakeTarget) : option MakeTarget :=
  match ts with
  | [] => None
  | tgt :: rest =>
      if strings_EqualFold (Name tgt) nm then Some tgt else find_target nm rest
  end.

(** [func (mf *Makefile) Find(name string) *MakeTarget]. *)
Definition Find (mf : Makefile) (nm : string) : option MakeTarget :=
  find_target nm (targets mf).

Definition unknown_target (nm : string) : error :=
  errorString ("unknown target: " +:+ nm).

(** The first loop of [Depend]: the targets of the names, or the error for
    the first name without a target. *)
Fixpoint lookup_all (mf : Makefile) (names : list string)
    (found : list MakeTarget) : list MakeTarget + error :=
  match names with
  | [] => inl found
  | nm :: rest =>
      match Find mf nm with
      | Some tgt => lookup_all mf rest (found ++ [tgt])
      | None => inr (unknown_target nm)
      end
  end.

(** The second loop of [Depend]. *)
Fixpoint exec_all (ts : list MakeTarget) (w : MWorld) : Outcome * MWorld :=
  match ts with
  | [] => (Return None, w)
  | tgt :: rest =>
      match exec tgt w with
      | (Return None, w) => exec_all rest w
      | (Return (Some err), w) => (Return (Some err), w)
      | (GoPanic, w) => (GoPanic, w)
      end
  end.

(** [func (mf *Makefile) Depend(ctx, names ...string) error]. *)
Definition Depend (mf : Makefile) (names : list string) (w : MWorld)
    : Outcome * MWorld :=
  if decide (length names = 0) then (Return None, w)
  else
    match lookup_all mf names [] with
    | inr err => (Return (Some err), w)
    | inl ts => exec_all ts w
    end.


(** [func (mf *Makefile) runDefault(ctx) error]; the index expression panics
    out of range. *)
Definition runDefault (mf : Makefile) (w : MWorld) : Outcome * MWorld :=
  match targets mf !! defaultTarget mf with
  | Some tgt => exec tgt w
  | None => (GoPanic, w)
  end.

(** [func (mf *Makefile) showHelp() error] prints with [fmt]; its effect is
    given from outside. *)
Variable showHelp : Makefile → MWorld → Outcome * MWorld.

(** [func (mf *Makefile) RunE(ctx) error]: the outcome, the makefile with
    its [commandArgs], and the world. *)
Definition RunE (mf : Makefile) (w : MWorld) : Outcome * Makefile * MWorld :=
  match args mf with
  | [] => let '(r, w) := runDefault mf w in (r, mf, w)
  | cmd :: rest =>
      let mf := set_commandArgs rest mf in
      if decide (cmd = "-help")
      then let '(r, w) := showHelp mf w in (r, mf, w)
      else
        match Find mf cmd with
        | None => (Return (Some (unknown_target cmd)), mf, w)
        | Some tgt => let '(r, w) := exec tgt w in (r, mf, w)
        end
  end.

(** The comparison given to [slices.SortFunc] in [normalize]. *)
Definition by_default_then_name (a b : MakeTarget) : Z :=
  if Default a then (-1)%Z
  else if Default b then 1%Z
  else strings_Compare (Name a) (Name b).

(** The first loop of [normalize], from index [i]: the targets kept, and
    the world with a warning for each target skipped. *)
Fixpoint drop_duplicates (ts : list MakeTarget) (i : nat) (names : gset string)
    (normalTargets : list MakeTarget) (w : MWorld) : list MakeTarget * MWorld :=
  match ts with
  | [] => (normalTargets, w)
  | tgt :: rest =>
      let nm := strings_ToLower (Name tgt) in
      if decide (nm ∈ names)
      then drop_duplicates rest (S i) names normalTargets
             (log LevelWarn "[gnob] duplicate target"
                [("name", AString nm); ("index", AInt i)] w)
      else drop_duplicates rest (S i) ({[nm]} ∪ names) (normalTargets ++ [tgt]) w
  end.

(** The last loop of [normalize]: the index of the first default target. *)
Fixpoint first_default (ts : list MakeTarget) (i : nat) : option nat :=
  match ts with
  | [] => None
  | tgt :: rest => if Default tgt then Some i else first_default rest (S i)
  end.

(** [func (mf *Makefile) normalize()]. *)
Definition normalize (mf : Makefile) (w : MWorld) : Makefile * MWorld :=
  let '(normalTargets, w) := drop_duplicates (targets mf) 0 ∅ [] w in
  let normalTargets := slices_SortFunc by_default_then_name normalTargets in
  let mf := set_targets normalTargets mf in
  let mf := set_defaultTarget 0 mf in
  let mf := match first_default (targets mf) 0 with
            | Some i => set_defaultTarget i mf
            | None => mf
            end in
  (mf, w).

(** [func (_makefile) NewEx(name, args, targets...) *Makefile]. *)
Definition NewEx (nm : string) (arguments : list string) (ts : list MakeTarget)
    (w : MWorld) : Makefile * MWorld :=
  normalize (mkMakefile nm arguments [] ts 0) w.

(** [func (mf *Makefile) Add(tgts ...MakeTarget)]; every round of the loop
    has its own [tgt], so the pointers appended are to the targets given. *)
Definition Add (mf : Makefile) (tgts : list MakeTarget) (w : MWorld)
    : Makefile * MWorld :=
  normalize (set_targets (targets mf ++ tgts) mf) w.

End Targets.

(** For examples: names compared and lowered letter by letter over ASCII,
    a sort by insertion, and targets that count in the state. *)
Definition lower_ascii (c : ascii) : ascii :=
  let n := nat_of_ascii c in
  if bool_decide (65 ≤ n ≤ 90) then ascii_of_nat (n + 32) else c.

Fixpoint ascii_ToLower (s : string) : string :=
  match s with
  | EmptyString => EmptyString
  | String c rest => String (lower_ascii c) (ascii_ToLower rest)
  end.

Definition ascii_EqualFold (a b : string) : bool :=
  bool_decide (ascii_ToLower a = ascii_ToLower b).

Fixpoint insert_sorted {A} (cmp : A → A → Z) (x : A) (l : list A) : list A :=
  match l with
  | [] => [x]
  | y :: rest =>
      if bool_decide (cmp x y < 0)%Z then x :: y :: rest
      else y :: insert_sorted cmp x rest
  end.

Definition insertion_sort {A} (cmp : A → A → Z) (l : list A) : list A :=
  foldr (insert_sorted cmp) [] l.

Definition no_help (mf : @Makefile nat) (w : @MWorld nat) : Outcome * @MWorld nat :=
  (Return None, w).

Definition counting (nm : string) (default : bool) : @MakeTarget nat :=
  mkTarget nm "" "" false default None
    (Some (λ w, (None, mkMWorld (S (state w)) (logged w)))).

Definition failing (nm : string) : @MakeTarget nat :=
  mkTarget nm "" "" false false None
    (Some (λ w, (Some (errorString "failed"), w))).

Definition fresh (nm : string) : @MakeTarget nat :=
  mkTarget nm "" "" false false (Some (λ w, (true, w))) None.

Definition mworld0 : @MWorld nat := mkMWorld 0 [].

Definition some_targets : list (@MakeTarget nat) :=
  [counting "test" false; counting "build" true; failing "Test"; fresh "docs"].

Definition makefile0 : @Makefile nat :=
  (NewEx ascii_ToLower insertion_sort "gnob" [] some_targets mworld0).1.

(** A target guarded by the times of files, as the targets of main.go
    are: its body writes the target file. *)
Definition rebuilt (target : string) (sources : list string) (now : Files.Time)
    : @MakeTarget Files.disk :=
  mkTarget target "" "" false false
    (Some (λ w, (Files.FileUpToDate Files.disk_Stat Files.disk_Glob target sources
                   (state w), w)))
    (Some (λ w, (None, mkMWorld (<[target := now]> (state w)) (logged w)))).

End Makefile.

(** * Properties *)

Section Properties.

Context {V : Type}.
Variable map_range : gmap string string → list (string * string).
Variable start_process : Cmd → option error.

#[local] Abbreviation World := (@World V).
#[local] Abbreviation Exec := (@Exec V).
#[local] Abbreviation func := (@func V).
#[local] Abbreviation ExecOption := (@ExecOption V).
#[local] Abbreviation cmdOptions := (@cmdOptions V).

(** ** Environment of a stage *)

Lemma foldl_snoc_entries (l : list (string * string)) (init : list string) :
  foldl (λ env kv, env ++ [Sprintf_kv kv.1 kv.2]) init l = init ++ (entry <$> l).
Proof.
  revert init. induction l as [|kv l IH]; intros init; simpl.
  - by rewrite app_nil_r.
  - rewrite IH. by rewrite <- app_assoc.
Qed.

Lemma split_kv_entry (k v : string) :
  plain_key k = true → split_kv (Sprintf_kv k v) = Some (k, v).
Proof.
  unfold Sprintf_kv. induction k as [|c k IH]; simpl; intros Hk.
  - done.
  - destruct (decide (c = "="%char)); [done|].
    rewrite IH by done. done.
Qed.

Lemma env_lookup_app (l1 l2 : list string) (k : string) :
  env_lookup (l1 ++ l2) k =
    match env_lookup l2 k with
    | Some v => Some v
    | None => env_lookup l1 k
    end.
Proof.
  induction l1 as [|kv l1 IH]; simpl.
  - by destruct (env_lookup l2 k).
  - rewrite IH. by destruct (env_lookup l2 k).
Qed.

Lemma env_lookup_entries_None (kvs : list (string * string)) (k : string) :
  Forall (λ kv, plain_key kv.1 = true) kvs →
  k ∉ kvs.*1 → env_lookup (entry <$> kvs) k = None.
Proof.
  induction kvs as [|[k' v'] kvs IH]; intros Hp Hk; [done|].
  apply Forall_cons in Hp as [Hp1 Hp].
  rewrite fmap_cons in Hk. apply not_elem_of_cons in Hk as [Hne Hk].
  rewrite fmap_cons. cbn [env_lookup].
  rewrite IH by done. unfold entry at 1. simpl in Hp1, Hne. cbn [fst snd].
  rewrite split_kv_entry by done.
  by rewrite decide_False.
Qed.

Lemma env_lookup_entries (kvs : list (string * string)) (k v : string) :
  Forall (λ kv, plain_key kv.1 = true) kvs →
  NoDup kvs.*1 → (k, v) ∈ kvs → env_lookup (entry <$> kvs) k = Some v.
Proof.
  induction kvs as [|[k' v'] kvs IH]; intros Hp Hnd Hin.
  - by apply elem_of_nil in Hin.
  - apply Forall_cons in Hp as [Hp1 Hp].
    rewrite fmap_cons in Hnd. apply NoDup_cons in Hnd as [Hnotin Hnd].
    rewrite fmap_cons. cbn [env_lookup].
    apply elem_of_cons in Hin as [Heq|Hin].
    + inversion Heq; subst k' v'.
      rewrite env_lookup_entries_None by done.
      unfold entry at 1. simpl in Hp1. cbn [fst snd].
      rewrite split_kv_entry by done.
      by rewrite decide_True.
    + by rewrite IH.
Qed.

Lemma ExecOpt_Ok (c : Ctx) (opt : option ExecOption) (command : string)
    (args : list string) (w : World) :
  ∃ e, ExecOpt map_range c opt command args w
       = Ok e (set_next_addr (S (next_addr w))
                 (set_heap (<[next_addr w := []]> (heap w)) w))
     ∧ prev e = None ∧ ctx e = c ∧ stderr_buf e = next_addr w
     ∧ closers e = [] ∧ onExit_ e = onExit (options_of opt) ∧ exitCodes e = []
     ∧ Args (cmd e) = command :: args
     ∧ Stdin (cmd e) = stdin (options_of opt)
     ∧ Stdout (cmd e) = stdout (options_of opt)
     ∧ Stderr (cmd e) = stderr (options_of opt).
Proof.
  unfold ExecOpt. fold (options_of opt).
  set (o := options_of opt).
  eexists. split; [reflexivity|].
  repeat split; by (simpl; destruct (decide (workingDir o ≠ ""))).
Qed.

(** The order of a map range is some order of the bindings of the map. *)
Hypothesis map_range_perm : ∀ m, map_range m ≡ₚ map_to_list m.

Lemma map_range_empty : map_range ∅ = [].
Proof.
  apply Permutation_nil_r. rewrite map_range_perm. by rewrite map_to_list_empty.
Qed.

Lemma ExecOpt_Env (c : Ctx) (opt : option ExecOption) (command : string)
    (args : list string) (w w' : World) (e : Exec) :
  ExecOpt map_range c opt command args w = Ok e w' →
  Env (cmd e) =
    (if noInheritEnv (options_of opt) then [] else environ w)
    ++ (entry <$> map_range (envVars (options_of opt))).
Proof.
  unfold ExecOpt. fold (options_of opt).
  set (o := options_of opt). intros [= <- _]. simpl.
  destruct (decide (0 < size (envVars o))) as [Hsz|Hsz].
  - rewrite foldl_snoc_entries. by destruct (noInheritEnv o).
  - assert (envVars o = ∅) as -> by (apply map_size_empty_iff; lia).
    rewrite map_range_empty. simpl. rewrite app_nil_r.
    by destruct (noInheritEnv o).
Qed.

(** C7: the environment handed to the process of a stage built by
    [ExecOpt] is the caller's environment (left out when [noInheritEnv] is
    set) followed by one [KEY=VALUE] entry per binding of [envVars]; the
    entries come last, so a bound variable has the value of [envVars]
    whatever the caller's environment says; with [noInheritEnv] the
    environment is the [envVars] entries alone. *)
Theorem ExecOpt_environment (c : Ctx) (opt : option ExecOption) (command : string)
    (args : list string) (w w' : World) (e : Exec) :
  ExecOpt map_range c opt command args w = Ok e w' →
  let o := options_of opt in
  let added := entry <$> map_range (envVars o) in
  Env (cmd e) = (if noInheritEnv o then [] else [] ++ environ w) ++ added
  ∧ added ≡ₚ entry <$> map_to_list (envVars o)
  ∧ (map_Forall (λ k _, plain_key k = true) (envVars o) →
     ∀ k v, envVars o !! k = Some v → env_lookup (Env (cmd e)) k = Some v)
  ∧ (noInheritEnv o = true → Env (cmd e) = added).
Proof.
  intros Hrun o added.
  pose proof (ExecOpt_Env _ _ _ _ _ _ _ Hrun) as HEnv.
  fold o in HEnv. fold added in HEnv.
  split; [by rewrite HEnv|].
  split; [unfold added; by rewrite map_range_perm|].
  split.
  - intros Hplain k v Hkv. rewrite HEnv, env_lookup_app.
    unfold added. rewrite (env_lookup_entries _ k v); [done| | |].
    + apply Forall_forall. intros [k1 v1] Hin. simpl.
      apply (Hplain k1 v1). apply elem_of_map_to_list.
      by rewrite <- map_range_perm.
    + rewrite map_range_perm. apply NoDup_fst_map_to_list.
    + rewrite map_range_perm. by apply elem_of_map_to_list.
  - intros Hno. rewrite HEnv, Hno. done.
Qed.

(** ** Linking *)

(** A tee link, made when the stdout of the predecessor is already set:
    the predecessor gains the closers of its destination and of the write
    end, and writes into the write end; the stage returned reads through a
    tee from the read end, and has no closer. *)
Lemma PipeOpt_tee (e : Exec) (opt : option ExecOption) (command : string)
    (args : list string) (w w' : World) (r : Exec) (out : Writer) :
  Stdout (cmd e) = Some out →
  PipeOpt map_range e opt command args w = Ok r w' →
  let pr := next_fd w in
  let pw := S (next_fd w) in
  prev r = Some (set_cmd (set_Stdout (Some (WFile pw)) (cmd e))
                   (set_closers (closers e ++ closer_list out ++ [CFile pw]) e))
  ∧ Stdin (cmd r) = Some (TeeReader (RFile pr) out)
  ∧ closers r = [] ∧ onExit_ r = [] ∧ exitCodes r = [].
Proof.
  intros Hout. unfold PipeOpt, mbind, M_bind.
  destruct (ExecOpt_Ok (ctx e) opt command args w) as (next & -> & _).
  rewrite Hout. unfold os_Pipe at 1. cbn [next_fd set_next_addr set_heap max_fd].
  destruct (decide _) as [Hfd|Hfd]; [|done].
  unfold closer_list. destruct (as_Closer out) as [c|]; intros [= <- _]; simpl;
    rewrite <- ?app_assoc; done.
Qed.

(** The same for [Pipe2Opt], on the stderr of the predecessor. *)
Lemma Pipe2Opt_tee (e : Exec) (opt : option ExecOption) (command : string)
    (args : list string) (w w' : World) (r : Exec) (out : Writer) :
  Stderr (cmd e) = Some out →
  Pipe2Opt map_range e opt command args w = Ok r w' →
  let pr := next_fd w in
  let pw := S (next_fd w) in
  prev r = Some (set_cmd (set_Stderr (Some (WFile pw)) (cmd e))
                   (set_closers (closers e ++ closer_list out ++ [CFile pw]) e))
  ∧ Stdin (cmd r) = Some (TeeReader (RFile pr) out)
  ∧ closers r = [] ∧ onExit_ r = [] ∧ exitCodes r = [].
Proof.
  intros Hout. unfold Pipe2Opt, mbind, M_bind.
  destruct (ExecOpt_Ok (ctx e) opt command args w) as (next & -> & _).
  rewrite Hout. unfold os_Pipe at 1. cbn [next_fd set_next_addr set_heap max_fd].
  destruct (decide _) as [Hfd|Hfd]; [|done].
  unfold closer_list. destruct (as_Closer out) as [c|]; intros [= <- _]; simpl;
    rewrite <- ?app_assoc; done.
Qed.

(** Every stage returned by a linking call has empty [closers], [onExit]
    and [exitCodes], whatever the options were. *)
Lemma PipeOpt_fields (e : Exec) (opt : option ExecOption) (command : string)
    (args : list string) (w w' : World) (r : Exec) :
  PipeOpt map_range e opt command args w = Ok r w' →
  closers r = [] ∧ onExit_ r = [] ∧ exitCodes r = [] ∧ ctx r = ctx e
  ∧ ∃ e', prev r = Some e'.
Proof.
  unfold PipeOpt, mbind, M_bind.
  destruct (ExecOpt_Ok (ctx e) opt command args w) as (next & -> & _).
  destruct (Stdout (cmd e)) as [out|] eqn:Hout.
  - unfold os_Pipe at 1. destruct (decide _); [|done].
    intros [= <- _]. simpl. by destruct (as_Closer out); eauto 10.
  - unfold StdoutPipe, mbind, M_bind. rewrite Hout.
    unfold os_Pipe at 1. destruct (decide _); [|done].
    intros [= <- _]. simpl. repeat split; eauto.
Qed.

Lemma Pipe2Opt_fields (e : Exec) (opt : option ExecOption) (command : string)
    (args : list string) (w w' : World) (r : Exec) :
  Pipe2Opt map_range e opt command args w = Ok r w' →
  closers r = [] ∧ onExit_ r = [] ∧ exitCodes r = [] ∧ ctx r = ctx e
  ∧ ∃ e', prev r = Some e'.
Proof.
  unfold Pipe2Opt, mbind, M_bind.
  destruct (ExecOpt_Ok (ctx e) opt command args w) as (next & -> & _).
  destruct (Stderr (cmd e)) as [out|] eqn:Hout.
  - unfold os_Pipe at 1. destruct (decide _); [|done].
    intros [= <- _]. simpl. by destruct (as_Closer out); eauto 10.
  - unfold StderrPipe, mbind, M_bind. rewrite Hout.
    unfold os_Pipe at 1. destruct (decide _); [|done].
    intros [= <- _]. simpl. repeat split; eauto.
Qed.

(** ** Chains *)

Lemma chain_of_unfold (e : Exec) :
  chain_of e = e :: match prev e with
                    | Some e' => chain_of e'
                    | None => []
                    end.
Proof. by destruct e. Qed.

Lemma chain_of_last (e : Exec) :
  ∃ h, last (chain_of e) = Some h ∧ prev h = None.
Proof.
  induction e as [c k a cs fs codes|p c k a cs fs codes IH] using Exec_prev_ind.
  - by eexists.
  - destruct IH as (h & Hlast & Hprev). exists h. split; [|done].
    rewrite chain_of_unfold. cbn [prev].
    rewrite last_cons, Hlast. done.
Qed.

Lemma head_to_tail_head (e : Exec) :
  ∃ h, head (head_to_tail e) = Some h ∧ prev h = None.
Proof.
  destruct (chain_of_last e) as (h & Hlast & Hprev). exists h. split; [|done].
  unfold head_to_tail. by rewrite head_reverse.
Qed.

(** ** Start *)

(** What the wiring of the stderr changes in a stage, and what it keeps. *)
Lemma wire_stderr_fields (e : Exec) :
  wired e (wire_stderr e)
  ∧ prev (wire_stderr e) = prev e
  ∧ tail (chain_of (wire_stderr e)) = tail (chain_of e)
  ∧ stderr_buf (wire_stderr e) = stderr_buf e
  ∧ closers (wire_stderr e) = closers e
  ∧ onExit_ (wire_stderr e) = onExit_ e
  ∧ exitCodes (wire_stderr e) = exitCodes e.
Proof.
  unfold wire_stderr, wired. rewrite !chain_of_unfold.
  destruct (Stderr (cmd e)); done.
Qed.

Lemma Start_stage (e : Exec) (w : World) : (Start start_process e w).1.2 = wire_stderr e.
Proof. unfold Start. by destruct (start_loop start_process _ _). Qed.

(** C3, as amended: [Start] wires the stderr of the stage it is called on,
    the tail of the chain, to that stage's diagnostic buffer (alone, or in
    a fan-out with the caller's destination); every other stage of the
    chain is left as it was built. *)
Theorem Start_wires_tail (e : Exec) (w : World) :
  let e' := (Start start_process e w).1.2 in
  wired e e'
  ∧ prev e' = prev e
  ∧ tail (chain_of e') = tail (chain_of e)
  ∧ stderr_buf e' = stderr_buf e ∧ closers e' = closers e
  ∧ onExit_ e' = onExit_ e ∧ exitCodes e' = exitCodes e.
Proof.
  rewrite Start_stage. unfold wire_stderr, wired.
  rewrite !chain_of_unfold.
  destruct (Stderr (cmd e)); done.
Qed.

Lemma start_loop_spec (cs : list Cmd) (w : World) :
  ∃ started rest,
    cs = started ++ rest
    ∧ (start_loop start_process cs w).2 = set_procs (procs w ++ started) w
    ∧ Forall (λ c, start_process c = None) started
    ∧ match (start_loop start_process cs w).1 with
      | None => rest = []
      | Some err => ∃ c rest', rest = c :: rest' ∧ start_process c = Some err
      end.
Proof.
  revert w. induction cs as [|c cs IH]; intros w.
  - exists [], []. simpl. rewrite app_nil_r. by destruct w.
  - simpl. destruct (start_process c) as [err|] eqn:Hc.
    + exists [], (c :: cs). simpl. rewrite app_nil_r.
      repeat split; [by destruct w|done|eauto].
    + destruct (IH (set_procs (procs w ++ [c]) w)) as (st & rest & -> & Hw & Hok & Herr).
      exists (c :: st), rest. rewrite Hw. simpl. rewrite <- app_assoc.
      repeat split; [by constructor|done].
Qed.

(** C6: [Start] spawns the processes in head-to-tail order, the stage
    without predecessor first; the first spawn that fails ends the call
    with its error, the stages after it are not spawned, and the processes
    spawned before it stay spawned. *)
Theorem Start_head_to_tail (e : Exec) (w : World) :
  let err := (Start start_process e w).1.1 in
  let e' := (Start start_process e w).1.2 in
  let w' := (Start start_process e w).2 in
  (∃ h, head (head_to_tail e') = Some h ∧ prev h = None)
  ∧ ∃ started rest,
      cmd <$> head_to_tail e' = started ++ rest
      ∧ w' = set_procs (procs w ++ started) w
      ∧ Forall (λ c, start_process c = None) started
      ∧ match err with
        | None => rest = []
        | Some er => ∃ c rest', rest = c :: rest' ∧ start_process c = Some er
        end.
Proof.
  cbn zeta. split; [apply head_to_tail_head|].
  unfold Start, head_to_tail.
  match goal with |- context [start_loop start_process ?l w] =>
    destruct (start_loop_spec l w) as (st & rest & Heq & Hw & Hok & Herr);
    destruct (start_loop start_process l w) as [err w'] eqn:Hloop
  end.
  cbn [fst snd] in *. exists st, rest.
  rewrite fmap_reverse. done.
Qed.

(** ** Wait *)

Lemma visit_order_stages (chain : list Exec) :
  (visit_order chain).*2 = reverse chain.
Proof.
  unfold visit_order. rewrite fmap_reverse. f_equal.
  rewrite fmap_imap. rewrite (imap_ext _ (const id)) by done.
  rewrite imap_const. apply list_fmap_id.
Qed.

Lemma wait_loop_app (sel : nat → Select) (done rest : list (nat * Exec))
    (errs : list (option error)) (codes : list Z) (w : World) :
  wait_loop sel (done ++ rest) errs codes w =
    match wait_loop sel done errs codes w with
    | (inl err, w') => (inl err, w')
    | (inr (errs', codes'), w') => wait_loop sel rest errs' codes' w'
    end.
Proof.
  revert errs codes w. induction done as [|[i s] done IH]; intros errs codes w.
  - done.
  - simpl. destruct (sel i) as [err|x]; [done|]. apply IH.
Qed.

(** When every [select] receives the end of the process, the loop runs to
    its end and the accumulators grow by one entry per stage. *)
Lemma wait_loop_received (sel : nat → Select) (stages : list (nat * Exec))
    (xs : list Exit) (errs : list (option error)) (codes : list Z) (w : World) :
  Forall2 (λ (st : nat * Exec) x, sel st.1 = Received x) stages xs →
  (wait_loop sel stages errs codes w).1
  = inr (errs ++ (status <$> xs), codes ++ ((recorded_code ∘ status) <$> xs)).
Proof.
  intros H. revert errs codes w.
  induction H as [|[i s] x stages xs Hsel _ IH]; intros errs codes w.
  - simpl. by rewrite !app_nil_r.
  - simpl in *. rewrite Hsel. rewrite IH. by rewrite <- !app_assoc.
Qed.

Lemma errors_Join_None (errs : list (option error)) :
  errors_Join errs = None ↔ Forall (λ er, er = None) errs.
Proof.
  unfold errors_Join. split.
  - intros H. destruct (omap id errs) as [|e0 es] eqn:Hom; [|done].
    clear H. induction errs as [|[er|] errs IH]; [done| |].
    + done.
    + constructor; [done|]. apply IH. done.
  - intros H. replace (omap id errs) with (@nil error); [done|].
    induction H as [|er errs -> _ IH]; [done|]. done.
Qed.

Lemma recorded_code_exit_status (c : Z) : recorded_code (exit_status c) = c.
Proof. unfold exit_status. by destruct (decide (c = 0%Z)) as [->|]. Qed.

Lemma Wait_received (sel : nat → Select) (e : Exec) (w : World) (xs : list Exit) :
  Forall2 (λ (st : nat * Exec) x, sel st.1 = Received x) (visit_order (chain_of e)) xs →
  ∃ w',
    Wait sel e w =
      ((λ er, wrapError (Args (cmd e)) er (Bytes (stderr_buf e) w'))
         <$> errors_Join (status <$> xs),
       set_exitCodes ((recorded_code ∘ status) <$> xs) e, w').
Proof.
  intros Hall.
  pose proof (wait_loop_received sel _ xs [] [] w Hall) as Hloop.
  unfold Wait.
  destruct (wait_loop sel _ [] [] w) as [[er|[errs codes]] w'] eqn:Hw;
    cbn [fst] in Hloop; [done|].
  simpl in Hloop. injection Hloop as -> ->. exists w'.
  by destruct (errors_Join _).
Qed.

(** C4: when every stage's process ends and its result is received, the
    exit codes recorded on the handle are those of the stages in
    head-to-tail order; for processes that exit with statuses [cs] the
    list is [cs] and [Wait] returns an error exactly when some status is
    not zero; a failure that is not an exit-status error is recorded as
    zero. *)
Theorem Wait_exit_codes (sel : nat → Select) (e : Exec) (w : World) (xs : list Exit) :
  Forall2 (λ (st : nat * Exec) x, sel st.1 = Received x) (visit_order (chain_of e)) xs →
  let err := (Wait sel e w).1.1 in
  let e' := (Wait sel e w).1.2 in
  (visit_order (chain_of e)).*2 = head_to_tail e
  ∧ ExitCodes e' = (recorded_code ∘ status) <$> xs
  ∧ (∀ cs, status <$> xs = exit_status <$> cs →
       ExitCodes e' = cs ∧ (err ≠ None ↔ ∃ c, c ∈ cs ∧ c ≠ 0%Z))
  ∧ (∀ k x er, xs !! k = Some x → status x = Some er →
       errors_As_ExitError er = None → ExitCodes e' !! k = Some 0%Z).
Proof.
  intros Hall. cbn zeta.
  split; [apply visit_order_stages|].
  destruct (Wait_received sel e w xs Hall) as (w' & ->). cbn [fst snd].
  assert (ExitCodes (set_exitCodes ((recorded_code ∘ status) <$> xs) e)
          = (recorded_code ∘ status) <$> xs) as Hcodes by done.
  split; [done|]. split.
  - intros cs Hcs. rewrite Hcodes. split.
    + rewrite list_fmap_compose, Hcs, <- list_fmap_compose.
      rewrite <- (list_fmap_id cs) at 2. apply list_fmap_ext.
      intros _ c _. apply recorded_code_exit_status.
    + destruct (errors_Join (status <$> xs)) as [er|] eqn:HJ; simpl.
      * split; [intros _|done].
        destruct (decide (Forall (λ c, c = 0%Z) cs)) as [Hz|Hnz].
        -- assert (errors_Join (status <$> xs) = None) as HN; [|congruence].
           apply errors_Join_None. rewrite Hcs. apply Forall_fmap.
           eapply Forall_impl; [exact Hz|]. intros c ->. done.
        -- apply not_Forall_Exists in Hnz; [|apply _].
           apply Exists_exists in Hnz as (c & Hin & Hc). eauto.
      * split; [done|]. intros (c & Hin & Hc) _.
        apply errors_Join_None in HJ. rewrite Hcs in HJ.
        rewrite Forall_fmap in HJ. rewrite Forall_forall in HJ.
        specialize (HJ c Hin). simpl in HJ. unfold exit_status in HJ.
        by destruct (decide (c = 0%Z)).
  - intros k x er Hk Hst Has. rewrite Hcodes.
    rewrite list_lookup_fmap, Hk. simpl. by rewrite Hst; simpl; rewrite Has.
Qed.

Lemma Wait_cut_short (sel : nat → Select) (e : Exec) (w : World) (err : error) :
  (wait_loop sel (visit_order (chain_of e)) [] [] w).1 = inl err →
  Wait sel e w = (Some err, e, (wait_loop sel (visit_order (chain_of e)) [] [] w).2).
Proof.
  unfold Wait. destruct (wait_loop _ _ _ _ _) as [[er|[errs codes]] w'];
    cbn [fst snd]; congruence.
Qed.

Lemma never_waited_exitCodes (e : Exec) : never_waited map_range start_process e → exitCodes e = [].
Proof.
  induction 1 as [c opt command args w e w' H|p opt command args w e w' H
                 |p opt command args w e w' H|e w _ IH|sel e w _ IH [err Hcut]].
  - destruct (ExecOpt_Ok c opt command args w) as (e0 & He0 & Hf).
    rewrite He0 in H. injection H as <- _. by apply Hf.
  - by apply PipeOpt_fields in H as (_ & _ & ? & _).
  - by apply Pipe2Opt_fields in H as (_ & _ & ? & _).
  - rewrite Start_stage.
    destruct (wire_stderr_fields e) as (_ & _ & _ & _ & _ & _ & ->). done.
  - by rewrite (Wait_cut_short _ _ _ _ Hcut).
Qed.

Lemma ExitCode_empty (e : Exec) : exitCodes e = [] → ExitCode e = (-1)%Z.
Proof. unfold ExitCode. by intros ->. Qed.

(** C5: when the context is done at the [select] of some stage, after the
    stages before it were received, [Wait] returns the context's error at
    once: the world is the one left by the stages before, and neither that
    stage nor those after it are processed; and on a handle on which no
    [Wait] has run to completion, [ExitCode] is the sentinel -1. *)
Theorem Wait_context_done (sel : nat → Select) (e : Exec) (w : World)
    (done rest : list (nat * Exec)) (i : nat) (s : Exec) (xs : list Exit)
    (err : error) :
  visit_order (chain_of e) = done ++ (i, s) :: rest →
  Forall2 (λ (st : nat * Exec) x, sel st.1 = Received x) done xs →
  sel i = CtxDone err →
  Wait sel e w = (Some err, e, (wait_loop sel done [] [] w).2)
  ∧ (∀ h : Exec, never_waited map_range start_process h → ExitCode h = (-1)%Z)
  ∧ (never_waited map_range start_process e → ExitCode (Wait sel e w).1.2 = (-1)%Z).
Proof.
  intros Hchain Hdone Hsel.
  assert ((wait_loop sel (visit_order (chain_of e)) [] [] w)
          = (inl err, (wait_loop sel done [] [] w).2)) as Hloop.
  { rewrite Hchain, wait_loop_app.
    pose proof (wait_loop_received sel done xs [] [] w Hdone) as Hd.
    destruct (wait_loop sel done [] [] w) as [[er|[errs codes]] w1];
      cbn [fst snd] in *; [done|].
    simpl. by rewrite Hsel. }
  assert (Wait sel e w = (Some err, e, (wait_loop sel done [] [] w).2)) as HW.
  { rewrite (Wait_cut_short sel e w err); by rewrite Hloop. }
  split; [done|]. split.
  - intros h Hh. by apply ExitCode_empty, never_waited_exitCodes.
  - intros Hnw. rewrite HW. by apply ExitCode_empty, never_waited_exitCodes.
Qed.

(** The loop is left early only on the branch of the done context. *)
Lemma wait_loop_inl (sel : nat → Select) (stages : list (nat * Exec))
    (errs : list (option error)) (codes : list Z) (w : World) (err : error) :
  (wait_loop sel stages errs codes w).1 = inl err →
  ∃ i s, (i, s) ∈ stages ∧ sel i = CtxDone err.
Proof.
  revert errs codes w. induction stages as [|[i s] stages IH]; intros errs codes w.
  - done.
  - simpl. destruct (sel i) as [er|x] eqn:Hsel.
    + intros [= ->]. exists i, s. split; [left|done].
    + intros H. destruct (IH _ _ _ H) as (j & t & Hin & Hj).
      exists j, t. split; [by right|done].
Qed.

(** C9: a [Wait] that returns early with the context's error leaves the
    handle as it was, so the recorded exit codes are those from before the
    call; on a handle on which no [Wait] has run to completion,
    [ExitCodes] is then still empty and [ExitCode] still -1. *)
Theorem Wait_cancel_keeps_exit_codes (sel : nat → Select) (e : Exec) (w : World)
    (err : error) :
  (wait_loop sel (visit_order (chain_of e)) [] [] w).1 = inl err →
  (∃ i s, (i, s) ∈ visit_order (chain_of e) ∧ sel i = CtxDone err)
  ∧ (Wait sel e w).1.1 = Some err
  ∧ (Wait sel e w).1.2 = e
  ∧ ExitCodes (Wait sel e w).1.2 = ExitCodes e
  ∧ ExitCode (Wait sel e w).1.2 = ExitCode e
  ∧ (never_waited map_range start_process e →
     ExitCodes (Wait sel e w).1.2 = [] ∧ ExitCode (Wait sel e w).1.2 = (-1)%Z).
Proof.
  intros Hcut. rewrite (Wait_cut_short sel e w err Hcut). cbn [fst snd].
  split; [by eapply wait_loop_inl|].
  repeat split; try done.
  - by apply never_waited_exitCodes.
  - by apply ExitCode_empty, never_waited_exitCodes.
Qed.

(** ** Decode callbacks *)

Lemma same_but_vars_refl (w : World) : same_but_vars w w.
Proof. exists (vars w). by destruct w. Qed.

Lemma Write_WMulti (ws : list Writer) (data : list byte) (w : World) :
  Write (WMulti ws) data w = foldl (λ w x, Write x data w) w ws.
Proof. revert w. induction ws as [|x ws IH]; intros w; [done|]. apply IH. Qed.

Lemma Write_set_vars (wr : Writer) (data : list byte) (vs : gmap addr V) (w : World) :
  Write wr data (set_vars vs w) = set_vars vs (Write wr data w).
Proof.
  revert w. induction wr as [a|f|id b|ws IH] using Writer_nested_ind;
    intros w; try done.
  rewrite !Write_WMulti. revert w.
  induction IH as [|x ws Hx _ IHws]; intros w; [done|].
  simpl. rewrite Hx. apply IHws.
Qed.

Lemma worker_set_vars (s : Exec) (x : Exit) (vs : gmap addr V) (w : World) :
  worker s x (set_vars vs w) = set_vars vs (worker s x w).
Proof.
  unfold worker, cmd_Wait.
  change (set_closed (closed (set_vars vs w) ++ closers s) (set_vars vs w))
    with (set_vars vs (set_closed (closed w ++ closers s) w)).
  destruct (Stdout (cmd s)) as [o|]; destruct (Stderr (cmd s)) as [r|];
    rewrite ?Write_set_vars; done.
Qed.

Lemma worker_strip (s : Exec) (x : Exit) (w : World) :
  worker (strip_onExit s) x w = worker s x w.
Proof. by destruct s. Qed.

Lemma decode_callback_vars unmarshal (buf out : addr) (w : World) :
  same_but_vars (decode_callback unmarshal buf out w) w.
Proof.
  unfold decode_callback. destruct (vars w !! out); [by eexists|].
  apply same_but_vars_refl.
Qed.

Lemma callbacks_vars (fs : list func) (w1 w2 : World) :
  Forall is_decode fs → same_but_vars w1 w2 →
  same_but_vars (foldl (λ w f, f w) w1 fs) w2.
Proof.
  intros Hfs. revert w1. induction Hfs as [|f fs (U & buf & out & ->) _ IH];
    intros w1 Hw; [done|].
  simpl. apply IH. destruct Hw as [vs ->].
  destruct (decode_callback_vars U buf out (set_vars vs w2)) as [vs' ->].
  by exists vs'.
Qed.

Lemma chain_of_strip (e : Exec) :
  chain_of (strip_onExit e) = strip_onExit <$> chain_of e.
Proof.
  induction e as [c k a cs fs codes|p c k a cs fs codes IH] using Exec_prev_ind.
  - done.
  - rewrite (chain_of_unfold (mkExec _ _ _ _ _ _ _)). cbn [prev].
    cbn [strip_onExit]. rewrite (chain_of_unfold (mkExec _ _ _ _ _ _ _)).
    cbn [prev]. rewrite IH. done.
Qed.

Lemma visit_order_fmap (f : Exec → Exec) (chain : list Exec) :
  visit_order (f <$> chain) = prod_map id f <$> visit_order chain.
Proof.
  unfold visit_order. rewrite fmap_reverse. f_equal.
  rewrite imap_fmap, fmap_imap. by apply imap_ext.
Qed.

(** The loop takes the same way and gathers the same errors and codes
    with and without decode callbacks. *)
Lemma wait_loop_strip (sel : nat → Select) (stages : list (nat * Exec))
    (errs : list (option error)) (codes : list Z) (w1 w2 : World) :
  Forall (λ st : nat * Exec, Forall is_decode (onExit_ st.2)) stages →
  same_but_vars w1 w2 →
  (wait_loop sel stages errs codes w1).1
  = (wait_loop sel (prod_map id strip_onExit <$> stages) errs codes w2).1
  ∧ same_but_vars (wait_loop sel stages errs codes w1).2
      (wait_loop sel (prod_map id strip_onExit <$> stages) errs codes w2).2.
Proof.
  intros Hst. revert errs codes w1 w2.
  induction Hst as [|[i s] stages Hs _ IH]; intros errs codes w1 w2 Hw.
  - done.
  - rewrite fmap_cons. cbn [wait_loop prod_map fst snd id].
    destruct (sel i) as [er|x]; [done|].
    apply IH. assert (onExit_ (strip_onExit s) = []) as -> by by destruct s.
    cbn [foldl]. rewrite worker_strip.
    apply callbacks_vars; [done|].
    destruct Hw as [vs ->]. rewrite worker_set_vars. by eexists.
Qed.

(** C8: on a chain whose callbacks are the decode callbacks of
    [WithStdoutJSONDecoder], whatever their decoders return, [Wait] returns
    the error and records the exit codes it returns and records on the
    same chain without any callback: what the decoder returns reaches
    neither a stage's error, nor the joined error, nor the exit codes. *)
Theorem decode_failure_discarded (sel : nat → Select) (e : Exec) (w : World) :
  Forall (λ s, Forall is_decode (onExit_ s)) (chain_of e) →
  (Wait sel e w).1.1 = (Wait sel (strip_onExit e) w).1.1
  ∧ ExitCodes (Wait sel e w).1.2 = ExitCodes (Wait sel (strip_onExit e) w).1.2.
Proof.
  intros Hdec. unfold Wait.
  rewrite chain_of_strip, visit_order_fmap.
  assert (Forall (λ st : nat * Exec, Forall is_decode (onExit_ st.2))
            (visit_order (chain_of e))) as Hst.
  { apply Forall_forall. intros [i s] Hin. simpl.
    rewrite Forall_forall in Hdec. apply Hdec.
    rewrite <- elem_of_reverse, <- visit_order_stages.
    apply list_elem_of_fmap. by exists (i, s). }
  destruct (wait_loop_strip sel _ [] [] w w Hst (same_but_vars_refl w)) as [H1 H2].
  destruct (wait_loop sel (visit_order _) [] [] w) as [[er|[errs codes]] w1];
    destruct (wait_loop sel (_ <$> _) [] [] w) as [[er'|[errs' codes']] w2];
    cbn [fst snd] in *; try done.
  - injection H1 as ->. split; [done|by destruct e].
  - injection H1 as -> ->. destruct H2 as [vs ->].
    assert (Args (cmd (strip_onExit e)) = Args (cmd e)
            ∧ stderr_buf (strip_onExit e) = stderr_buf e) as [HA HB]
      by by destruct e.
    destruct (errors_Join errs'); cbn [fst snd]; [|done].
    cbn [set_exitCodes cmd stderr_buf]. rewrite HA, HB. done.
Qed.

(** ** One decoder option on two stages *)

Lemma WithStdoutJSONDecoder_Ok unmarshal (out : addr) (w : World) :
  ∃ opt,
    WithStdoutJSONDecoder unmarshal out w
    = Ok opt (set_next_addr (S (next_addr w))
                (set_heap (<[next_addr w := []]> (heap w)) w))
    ∧ ∀ o, stdout (apply opt o) = Some (WBuffer (next_addr w))
         ∧ onExit (apply opt o)
           = onExit o ++ [decode_callback unmarshal (next_addr w) out]
         ∧ noInheritEnv (apply opt o) = noInheritEnv o
         ∧ envVars (apply opt o) = envVars o
         ∧ stderr (apply opt o) = stderr o
         ∧ stdin (apply opt o) = stdin o.
Proof. eexists. split; [reflexivity|]. done. Qed.

(** [Start] and [Wait] on a stage alone in its chain. *)
Lemma Start_head (s : Exec) (w : World) :
  prev s = None →
  start_process (cmd (wire_stderr s)) = None →
  Start start_process s w = (None, wire_stderr s,
               set_procs (procs w ++ [cmd (wire_stderr s)]) w).
Proof.
  intros Hp Hok. unfold Start.
  assert (chain_of (wire_stderr s) = [wire_stderr s]) as ->.
  { rewrite chain_of_unfold.
    assert (prev (wire_stderr s) = None) as ->; [|done].
    unfold wire_stderr. by destruct (Stderr (cmd s)). }
  cbn. by rewrite Hok.
Qed.

Lemma Wait_head (sel : nat → Select) (s : Exec) (w : World) (x : Exit) :
  prev s = None → sel 0 = Received x →
  let w' := foldl (λ w f, f w) (worker s x w) (onExit_ s) in
  Wait sel s w =
    ((λ er, wrapError (Args (cmd s)) er (Bytes (stderr_buf s) w'))
       <$> errors_Join [status x],
     set_exitCodes [recorded_code (status x)] s, w').
Proof.
  destruct s as [p c k a cs fs codes]. cbn [prev]. intros -> Hsel.
  unfold Wait. cbn. rewrite Hsel. by destruct (errors_Join _).
Qed.

(** A stage alone in its chain, capturing into [buf] with the decode
    callback: when it has run, [buf] holds what it held before followed by
    the output of the process, and the target holds what the decoder made
    of all of it. *)
Lemma Run_single_decoder unmarshal (buf out : addr) (sel : nat → Select)
    (s : Exec) (w : World) (x : Exit) (v : V) :
  prev s = None → Stdout (cmd s) = Some (WBuffer buf) → Stderr (cmd s) = None →
  onExit_ s = [decode_callback unmarshal buf out] → stderr_buf s ≠ buf →
  (∀ k, start_process k = None) → sel 0 = Received x →
  vars w !! out = Some v →
  Bytes buf (Run start_process sel s w).2 = Bytes buf w ++ out_bytes x
  ∧ vars (Run start_process sel s w).2 !! out = Some (unmarshal (Bytes buf w ++ out_bytes x) v).1.
Proof.
  intros Hp Hso Hse Hon Hne Hspawn Hsel Hv.
  destruct (wire_stderr_fields s) as (Hwired & Hp' & _ & Hbuf' & Hcl' & Hon' & _).
  unfold wired in Hwired. rewrite Hse in Hwired.
  assert (Stdout (cmd (wire_stderr s)) = Some (WBuffer buf)) as Hso'.
  { unfold wire_stderr. rewrite Hse. cbn. done. }
  unfold Run. rewrite (Start_head s w Hp (Hspawn _)).
  set (s' := wire_stderr s) in *.
  rewrite (Wait_head sel s' _ x) by congruence. cbn [snd].
  rewrite Hon', Hon. cbn [foldl].
  set (w1 := worker _ _ _).
  assert (Bytes buf w1 = Bytes buf w ++ out_bytes x ∧ vars w1 = vars w) as [HB Hvars].
  { unfold w1, worker, cmd_Wait. rewrite Hso', Hwired.
    unfold Bytes. cbn.
    rewrite lookup_insert_ne by done. by rewrite lookup_insert_eq. }
  unfold decode_callback. rewrite Hvars, Hv.
  assert (∀ vs, Bytes buf (set_vars vs w1) = Bytes buf w1) as HBv by done.
  rewrite HBv, HB. split; [done|]. cbn [vars set_vars]. by rewrite lookup_insert_eq.
Qed.

(** C10, as amended: [WithStdoutJSONDecoder] allocates its capture buffer
    once, in the constructor; every application of the option it returns
    redirects stdout into that one buffer, so two stages built with the
    same option value capture into the same buffer and register the same
    decode callback.  A callback parses what the shared buffer holds when
    it runs: when the two stages are run one after the other, the callback
    of the first parses the output of the first stage alone, and the
    callback of the second parses the output of the first followed by the
    output of the second. *)
Theorem shared_decoder_buffer unmarshal (out : addr) (c : Ctx)
    (commandA commandB : string) (argsA argsB : list string)
    (w0 : World) (v0 : V) (xa xb : Exit) (selA selB : nat → Select) :
  vars w0 !! out = Some v0 →
  (∀ k, start_process k = None) →
  selA 0 = Received xa → selB 0 = Received xb →
  ∃ opt w1 a w2 b w3,
    let buf := next_addr w0 in
    WithStdoutJSONDecoder unmarshal out w0 = Ok opt w1
    ∧ (∀ o, stdout (apply opt o) = Some (WBuffer buf))
    ∧ ExecOpt map_range c (Some opt) commandA argsA w1 = Ok a w2
    ∧ ExecOpt map_range c (Some opt) commandB argsB w2 = Ok b w3
    ∧ Stdout (cmd a) = Some (WBuffer buf) ∧ Stdout (cmd b) = Some (WBuffer buf)
    ∧ onExit_ a = [decode_callback unmarshal buf out]
    ∧ onExit_ b = [decode_callback unmarshal buf out]
    ∧ let wa := (Run start_process selA a w3).2 in
      let wb := (Run start_process selB b wa).2 in
      let va := (unmarshal (out_bytes xa) v0).1 in
      Bytes buf wa = out_bytes xa
      ∧ vars wa !! out = Some va
      ∧ Bytes buf wb = out_bytes xa ++ out_bytes xb
      ∧ vars wb !! out = Some (unmarshal (out_bytes xa ++ out_bytes xb) va).1.
Proof.
  intros Hout Hspawn HselA HselB.
  destruct (WithStdoutJSONDecoder_Ok unmarshal out w0) as (opt & Hopt & Happ).
  set (w1 := set_next_addr _ _) in Hopt.
  destruct (ExecOpt_Ok c (Some opt) commandA argsA w1)
    as (a & Ha & HaP & HaC & HaB & HaCl & HaOn & HaEx & HaAr & HaIn & HaOut & HaErr).
  set (w2 := set_next_addr _ _) in Ha.
  destruct (ExecOpt_Ok c (Some opt) commandB argsB w2)
    as (b & Hb & HbP & HbC & HbB & HbCl & HbOn & HbEx & HbAr & HbIn & HbOut & HbErr).
  set (w3 := set_next_addr _ _) in Hb.
  exists opt, w1, a, w2, b, w3. cbn zeta.
  cbn [options_of] in *.
  destruct (Happ zero_cmdOptions) as (Hso & Hon & _ & _ & Hse & _).
  rewrite Hso in HaOut, HbOut. rewrite Hon in HaOn, HbOn. rewrite Hse in HaErr, HbErr.
  cbn in HaOn, HbOn, HaErr, HbErr.
  split; [done|]. split; [intros o; apply Happ|].
  do 6 (split; [done|]).
  assert (next_addr w1 ≠ next_addr w0 ∧ next_addr w2 ≠ next_addr w0) as [Hn1 Hn2].
  { unfold w2, w1. cbn. lia. }
  assert (Bytes (next_addr w0) w3 = [] ∧ vars w3 = vars w0) as [HB3 Hv3].
  { unfold Bytes, w3, w2, w1. cbn.
    rewrite !lookup_insert_ne by lia. by rewrite lookup_insert_eq. }
  destruct (Run_single_decoder unmarshal (next_addr w0) out selA a w3 xa v0)
    as [HBa Hva]; try done; try congruence.
  rewrite HB3 in HBa, Hva. cbn [app] in HBa, Hva.
  destruct (Run_single_decoder unmarshal (next_addr w0) out selB b
              (Run start_process selA a w3).2 xb (unmarshal (out_bytes xa) v0).1)
    as [HBb Hvb]; try done; try congruence.
  rewrite HBa in HBb, Hvb. done.
Qed.

End Properties.

(** * The engine at concrete chains *)

Lemma range_sorted_perm (m : gmap string string) : range_sorted m ≡ₚ map_to_list m.
Proof. done. Qed.

(** ** A captured stdout that is also piped *)

(** C1: on this chain the pipe is (read end 3, write end 4).  The caller's
    destination and the write end are in the closer list of the
    predecessor, and the successor reads through the tee from the read
    end; but the stage that [PipeOpt] returns has an empty closer list:
    the read end was appended to the closers of the stage that [ExecOpt]
    made, and that stage is dropped.  A complete [Run] closes the two
    closers of the predecessor and never the read end. *)
Theorem PipeOpt_read_end_not_registered :
  let r := (built capture_then_pipe).1 in
  let w := (built capture_then_pipe).2 in
  capture_then_pipe world0 = Ok r w
  ∧ Stdin (cmd r) = Some (TeeReader (RFile 3) (WUser 7 true))
  ∧ (Stdout ∘ cmd <$> prev r) = Some (Some (WFile 4))
  ∧ (closers <$> prev r) = Some [CUser 7; CFile 4]
  ∧ closers r = []
  ∧ closed (Run spawn_all (exits (λ _, 0%Z)) r w).2 = [CUser 7; CFile 4].
Proof. vm_compute. done. Qed.

Lemma Pipe2Opt_read_end_not_registered :
  let r := (built capture_then_pipe2).1 in
  Stdin (cmd r) = Some (TeeReader (RFile 3) (WUser 7 true))
  ∧ (closers <$> prev r) = Some [CUser 7; CFile 4]
  ∧ closers r = [].
Proof. vm_compute. done. Qed.

(** ** A decoder on a piped stage *)

(** C2: the stage that [PipeOpt] returns has no [onExit] callback although
    its option registered one: the output of the process reaches the
    capture buffer, [Wait] has nothing to call after the exit, and the
    target is never decoded into.  [ExecOpt] with the same option keeps
    the callback, and there the target is decoded into. *)
Theorem PipeOpt_drops_onExit :
  let r := (built decode_in_pipe).1 in
  let w := (built decode_in_pipe).2 in
  let h := (built decode_at_head).1 in
  let wh := (built decode_at_head).2 in
  decode_in_pipe world0 = Ok r w
  ∧ Stdout (cmd r) = Some (WBuffer 0)
  ∧ length (onExit_ r) = 0
  ∧ (Run spawn_all tail_prints r w).1.1 = None
  ∧ Bytes 0 (Run spawn_all tail_prints r w).2 = bytes_of "{}"
  ∧ vars (Run spawn_all tail_prints r w).2 !! 100 = Some []
  ∧ decode_at_head world0 = Ok h wh
  ∧ length (onExit_ h) = 1
  ∧ vars (Run spawn_all tail_prints h wh).2 !! 100 = Some (bytes_of "{}").
Proof. vm_compute. done. Qed.

(** ** Start on a chain of two stages *)

(** C3 as stated fails on [Cmd.Exec(ctx, "a").Pipe("b")]: after [Start] the
    stderr of the tail is the tail's diagnostic buffer, and the stderr of
    the head is still unset: not every stage is wired. *)
Lemma Start_leaves_head_unwired :
  let r := (built two_stages).1 in
  let w := (built two_stages).2 in
  two_stages world0 = Ok r w
  ∧ (Stderr ∘ cmd <$> chain_of (Start spawn_all r w).1.2) = [Some (WBuffer 2); None]
  ∧ ¬ Forall2 wired (chain_of r) (chain_of (Start spawn_all r w).1.2).
Proof.
  split; [by vm_compute|]. split; [by vm_compute|].
  intros H. apply Forall2_lookup_lr with (i := 1)
    (x := mkExec None 1
            (mkCmd ["a"] "" ["PATH=/bin"; "X=0"] None (Some (WFile 4)) None)
            0 [] [] [])
    (y := mkExec None 1
            (mkCmd ["a"] "" ["PATH=/bin"; "X=0"] None (Some (WFile 4)) None)
            0 [] [] []) in H; [|by vm_compute..].
  unfold wired in H. simpl in H. discriminate H.
Qed.

(** ** One decoder option, two stages run one after the other *)

(** C10 as stated fails when the two stages are run one after the other.
    The first stage prints [1] and the second prints [2].  Both capture
    into the buffer at address 0.  The callback of the first stage runs
    when the buffer holds [1]: it parses [1], not [12]. *)
Lemma first_callback_parses_first_output :
  ∃ opt a b w,
    shared_option world0 = Ok (opt, (a, b)) w
    ∧ Stdout (cmd a) = Some (WBuffer 0) ∧ Stdout (cmd b) = Some (WBuffer 0)
    ∧ let wa := (Run spawn_all (prints "1") a w).2 in
      let wb := (Run spawn_all (prints "2") b wa).2 in
      Bytes 0 wa = bytes_of "1"
      ∧ vars wa !! 100 = Some (bytes_of "1")
      ∧ Bytes 0 wb = bytes_of "12"
      ∧ vars wb !! 100 = Some (bytes_of "12")
      ∧ ¬ (vars wa !! 100 = Some (bytes_of "12")).
Proof.
  eexists _, _, _, _. split; [by vm_compute|].
  vm_compute. repeat split; try done.
Qed.

(** ** The theorems at concrete chains *)

Lemma Wait_exit_codes_witness :
  let r := (built two_stages).1 in
  let w := (built two_stages).2 in
  Forall2 (λ (st : nat * Exec) x, head_fails st.1 = Received x)
    (visit_order (chain_of r))
    [mkExit [] [] (exit_status 1); mkExit [] [] (exit_status 0)]
  ∧ ExitCodes (Wait head_fails r w).1.2 = [1%Z; 0%Z]
  ∧ (Wait head_fails r w).1.1 ≠ None.
Proof.
  intros r w.
  assert (Forall2 (λ (st : nat * Exec) x, head_fails st.1 = Received x)
            (visit_order (chain_of r))
            [mkExit [] [] (exit_status 1); mkExit [] [] (exit_status 0)]) as H.
  { vm_compute. repeat constructor. }
  split; [exact H|].
  destruct (Wait_exit_codes head_fails r w _ H) as (_ & _ & Hcs & _).
  destruct (Hcs [1%Z; 0%Z] eq_refl) as [Hcodes Herr].
  split; [exact Hcodes|]. apply Herr. exists 1%Z. split; [left|done].
Defined.

Lemma two_stages_never_waited :
  never_waited range_sorted spawn_all (built two_stages).1.
Proof.
  apply (nw_PipeOpt range_sorted spawn_all
           (built (Exec_ range_sorted 1 "a" [])).1 None "b" []
           (built (Exec_ range_sorted 1 "a" [])).2
           _ (built two_stages).2).
  by vm_compute.
Defined.

Lemma Wait_context_done_witness :
  let r := (built two_stages).1 in
  let w := (built two_stages).2 in
  (Wait deadline_at_tail r w).1.1 = Some DeadlineExceeded
  ∧ reaped (Wait deadline_at_tail r w).2 = cmd <$> option_list (prev r)
  ∧ ExitCode (Wait deadline_at_tail r w).1.2 = (-1)%Z.
Proof.
  intros r w.
  destruct (Wait_context_done range_sorted spawn_all deadline_at_tail r w
              [(1, default no_stage (prev r))] [] 0 r
              [mkExit [] [] None] DeadlineExceeded)
    as (HW & _ & Hcode).
  - by vm_compute.
  - vm_compute. repeat constructor.
  - done.
  - split; [by rewrite HW|]. split; [by vm_compute|].
    apply Hcode, two_stages_never_waited.
Defined.

Lemma Wait_cancel_keeps_exit_codes_witness :
  let r := (built two_stages).1 in
  let w := (built two_stages).2 in
  (wait_loop cancelled (visit_order (chain_of r)) [] [] w).1 = inl Canceled
  ∧ (Wait cancelled r w).1.1 = Some Canceled
  ∧ ExitCodes (Wait cancelled r w).1.2 = []
  ∧ ExitCode (Wait cancelled r w).1.2 = (-1)%Z.
Proof.
  intros r w.
  assert ((wait_loop cancelled (visit_order (chain_of r)) [] [] w).1 = inl Canceled)
    as H by by vm_compute.
  split; [exact H|].
  destruct (Wait_cancel_keeps_exit_codes range_sorted spawn_all cancelled r w Canceled H)
    as (_ & Herr & _ & _ & _ & Hfresh).
  destruct (Hfresh two_stages_never_waited) as [Hcodes Hcode].
  done.
Defined.

Lemma ExecOpt_environment_witness :
  let e := (built (ExecOpt range_sorted 1 (Some with_X) "printenv" [])).1 in
  Env (cmd e) = ["PATH=/bin"; "X=0"; "X=1"]
  ∧ env_lookup (Env (cmd e)) "X" = Some "1".
Proof.
  intros e.
  destruct (ExecOpt_environment range_sorted range_sorted_perm 1 (Some with_X)
              "printenv" [] world0
              (built (ExecOpt range_sorted 1 (Some with_X) "printenv" [])).2 e)
    as (HEnv & _ & Hover & _).
  - by vm_compute.
  - split; [by vm_compute|].
    apply Hover; [|by vm_compute].
    intros k v Hkv. assert (k = "X") as ->; [|done].
    destruct (decide (k = "X")) as [|Hne]; [done|].
    vm_compute in Hkv |- *. change (({["X" := "1"]} : gmap string string) !! k = Some v) in Hkv.
    by rewrite lookup_singleton_ne in Hkv.
Defined.

Lemma decode_failure_discarded_witness :
  let e := (built reject_at_head).1 in
  let w := (built reject_at_head).2 in
  Forall (λ s, Forall is_decode (onExit_ s)) (chain_of e)
  ∧ (reject (bytes_of "{") []).2 = Some (errorString "invalid character")
  ∧ (Wait (prints "{") e w).1.1 = None
  ∧ ExitCodes (Wait (prints "{") e w).1.2 = [0%Z].
Proof.
  intros e w.
  assert (Forall (λ s, Forall is_decode (onExit_ s)) (chain_of e)) as H.
  { repeat constructor. by exists reject, 0, 100. }
  split; [exact H|]. split; [done|].
  destruct (decode_failure_discarded (prints "{") e w H) as [-> ->].
  by vm_compute.
Defined.

Lemma shared_decoder_buffer_witness :
  vars world0 !! 100 = Some []
  ∧ ∃ (opt : ExecOption) (a b : Exec) (w : World),
      shared_option world0 = Ok (opt, (a, b)) w
      ∧ Stdout (cmd a) = Some (WBuffer 0) ∧ Stdout (cmd b) = Some (WBuffer 0)
      ∧ let wa := (Run spawn_all (prints "1") a w).2 in
        let wb := (Run spawn_all (prints "2") b wa).2 in
        vars wa !! 100 = Some (bytes_of "1")
        ∧ vars wb !! 100 = Some (bytes_of "12").
Proof.
  split; [done|].
  destruct (shared_decoder_buffer range_sorted spawn_all keep_raw 100 1
              "one" "two" [] [] world0 []
              (mkExit (bytes_of "1") [] None) (mkExit (bytes_of "2") [] None)
              (prints "1") (prints "2"))
    as (opt & w1 & a & w2 & b & w3 & Hopt & _ & Ha & Hb & HoutA & HoutB & _ & _
        & _ & HvA & _ & HvB); try done.
  exists opt, a, b, w3. split.
  - unfold shared_option, mbind, M_bind, mret, M_ret. by rewrite Hopt, Ha, Hb.
  - done.
Defined.

(** * Further properties of the engine *)

Section MoreProperties.

Context {V : Type}.
Variable map_range : gmap string string → list (string * string).
Variable start_process : Cmd → option error.

#[local] Abbreviation World := (@World V).
#[local] Abbreviation Exec := (@Exec V).
#[local] Abbreviation func := (@func V).
#[local] Abbreviation ExecOption := (@ExecOption V).
#[local] Abbreviation cmdOptions := (@cmdOptions V).

(** ** Composition of options *)

Lemma ExecOptions_app (l1 l2 : list ExecOption) (o : cmdOptions) :
  apply (ExecOptions (l1 ++ l2)) o = apply (ExecOptions l2) (apply (ExecOptions l1) o).
Proof. unfold apply, ExecOptions. by rewrite foldl_app. Qed.

(** X1: options combined by [ExecOptions] are applied in order, so a
    combination of two lists is the first list and then the second;
    combinations nest: a combination of combinations does what the
    combination of all their options does; and the combination of no
    option changes nothing. *)
Theorem ExecOptions_compose (l1 l2 : list ExecOption)
    (ls : list (list ExecOption)) (o : cmdOptions) :
  apply (ExecOptions (l1 ++ l2)) o = apply (ExecOptions l2) (apply (ExecOptions l1) o)
  ∧ apply (ExecOptions (ExecOptions <$> ls)) o = apply (ExecOptions (concat ls)) o
  ∧ apply (ExecOptions []) o = o.
Proof.
  split; [apply ExecOptions_app|]. split; [|done].
  revert o. induction ls as [|l ls IH]; intros o; [done|].
  rewrite fmap_cons. cbn [concat].
  rewrite ExecOptions_app, <- IH. done.
Qed.

(** Inserting the bindings of a list whose keys are distinct, in any
    order, is the union with the map of the list. *)
Lemma foldl_insert_union (l : list (string * string)) (base : gmap string string) :
  NoDup l.*1 →
  foldl (λ m kv, <[kv.1 := kv.2]> m) base l = list_to_map l ∪ base.
Proof.
  revert base. induction l as [|[k v] l IH]; intros base Hnd.
  - simpl. by rewrite (left_id_L ∅ (∪)).
  - rewrite fmap_cons in Hnd. apply NoDup_cons in Hnd as [Hk Hnd].
    cbn [foldl fst snd]. rewrite IH by done.
    rewrite list_to_map_cons, <- insert_union_l. symmetry. apply insert_union_r.
    by apply not_elem_of_list_to_map_1.
Qed.

Hypothesis map_range_perm : ∀ m, map_range m ≡ₚ map_to_list m.

Lemma WithEnvVars_envVars (env : gmap string string) (o : cmdOptions) :
  envVars (apply (WithEnvVars map_range env) o) = env ∪ envVars o.
Proof.
  unfold apply, WithEnvVars. cbn [envVars].
  rewrite foldl_insert_union.
  - f_equal. rewrite <- (list_to_map_to_list env) at 2.
    apply list_to_map_proper; [|apply map_range_perm].
    rewrite map_range_perm. apply NoDup_fst_map_to_list.
  - rewrite map_range_perm. apply NoDup_fst_map_to_list.
Qed.

(** X2: [WithEnvVars] merges: whatever the order of the map range, the
    variables after the option are its bindings over those set before, a
    key of the option taking the option's value; applied twice, the later
    option wins on a common key; and no other field of the options
    changes. *)
Theorem WithEnvVars_merge (env1 env2 : gmap string string) (o : cmdOptions) :
  envVars (apply (WithEnvVars map_range env1) o) = env1 ∪ envVars o
  ∧ envVars (apply (ExecOptions [WithEnvVars map_range env1;
                                 WithEnvVars map_range env2]) o)
    = env2 ∪ (env1 ∪ envVars o)
  ∧ (∀ k v, env2 !! k = Some v →
       envVars (apply (ExecOptions [WithEnvVars map_range env1;
                                    WithEnvVars map_range env2]) o) !! k = Some v)
  ∧ noInheritEnv (apply (WithEnvVars map_range env1) o) = noInheritEnv o
  ∧ workingDir (apply (WithEnvVars map_range env1) o) = workingDir o
  ∧ stdout (apply (WithEnvVars map_range env1) o) = stdout o
  ∧ stderr (apply (WithEnvVars map_range env1) o) = stderr o
  ∧ stdin (apply (WithEnvVars map_range env1) o) = stdin o
  ∧ onExit (apply (WithEnvVars map_range env1) o) = onExit o.
Proof.
  assert (envVars (apply (ExecOptions [WithEnvVars map_range env1;
                                       WithEnvVars map_range env2]) o)
          = env2 ∪ (env1 ∪ envVars o)) as Htwo.
  { change (apply (ExecOptions [WithEnvVars map_range env1; WithEnvVars map_range env2]) o)
      with (apply (WithEnvVars map_range env2) (apply (WithEnvVars map_range env1) o)).
    by rewrite !WithEnvVars_envVars. }
  split; [apply WithEnvVars_envVars|]. split; [exact Htwo|].
  split; [|done].
  intros k v Hk. rewrite Htwo. by apply lookup_union_Some_l.
Qed.

(** ** Linking *)

(** All of what [PipeOpt] returns. *)
Lemma PipeOpt_result (e : Exec) (opt : option ExecOption) (command : string)
    (args : list string) (w w' : World) (r : Exec) :
  PipeOpt map_range e opt command args w = Ok r w' →
  ∃ next w1,
    ExecOpt map_range (ctx e) opt command args w = Ok next w1
    ∧ next_fd w + 2 ≤ max_fd w
    ∧ r = mkExec
            (Some (set_cmd (set_Stdout (Some (WFile (S (next_fd w)))) (cmd e))
                     (set_closers
                        (closers e ++ link_closers (Stdout (cmd e)) (S (next_fd w))) e)))
            (ctx e)
            (set_Stdin (Some (link_reader (Stdout (cmd e)) (next_fd w))) (cmd next))
            (S (next_addr w)) [] [] []
    ∧ w' = set_next_addr (S (S (next_addr w)))
             (set_heap (<[S (next_addr w) := []]> (<[next_addr w := []]> (heap w)))
                (set_next_fd (next_fd w + 2) w)).
Proof.
  unfold PipeOpt, mbind, M_bind.
  destruct (ExecOpt_Ok map_range (ctx e) opt command args w) as (next & Hnext & _).
  rewrite Hnext. intros H. exists next. eexists. split; [reflexivity|].
  destruct (Stdout (cmd e)) as [out|] eqn:Hout.
  - unfold os_Pipe at 1 in H. cbn [next_fd set_next_addr set_heap max_fd] in H.
    destruct (decide _) as [Hfd|Hfd]; [|done].
    injection H as <- <-. split; [done|]. split; [|done].
    unfold link_closers, closer_list. cbn.
    destruct (as_Closer out); cbn; rewrite <- ?app_assoc; by destruct e.
  - unfold StdoutPipe, mbind, M_bind in H. rewrite Hout in H.
    unfold os_Pipe at 1 in H. cbn [next_fd set_next_addr set_heap max_fd] in H.
    destruct (decide _) as [Hfd|Hfd]; [|done].
    injection H as <- <-. split; [done|]. split; [|done].
    cbn. rewrite app_nil_r. by destruct e.
Qed.

Lemma Pipe2Opt_result (e : Exec) (opt : option ExecOption) (command : string)
    (args : list string) (w w' : World) (r : Exec) :
  Pipe2Opt map_range e opt command args w = Ok r w' →
  ∃ next w1,
    ExecOpt map_range (ctx e) opt command args w = Ok next w1
    ∧ next_fd w + 2 ≤ max_fd w
    ∧ r = mkExec
            (Some (set_cmd (set_Stderr (Some (WFile (S (next_fd w)))) (cmd e))
                     (set_closers
                        (closers e ++ link_closers (Stderr (cmd e)) (S (next_fd w))) e)))
            (ctx e)
            (set_Stdin (Some (link_reader (Stderr (cmd e)) (next_fd w))) (cmd next))
            (S (next_addr w)) [] [] []
    ∧ w' = set_next_addr (S (S (next_addr w)))
             (set_heap (<[S (next_addr w) := []]> (<[next_addr w := []]> (heap w)))
                (set_next_fd (next_fd w + 2) w)).
Proof.
  unfold Pipe2Opt, mbind, M_bind.
  destruct (ExecOpt_Ok map_range (ctx e) opt command args w) as (next & Hnext & _).
  rewrite Hnext. intros H. exists next. eexists. split; [reflexivity|].
  destruct (Stderr (cmd e)) as [out|] eqn:Hout.
  - unfold os_Pipe at 1 in H. cbn [next_fd set_next_addr set_heap max_fd] in H.
    destruct (decide _) as [Hfd|Hfd]; [|done].
    injection H as <- <-. split; [done|]. split; [|done].
    unfold link_closers, closer_list. cbn.
    destruct (as_Closer out); cbn; rewrite <- ?app_assoc; by destruct e.
  - unfold StderrPipe, mbind, M_bind in H. rewrite Hout in H.
    unfold os_Pipe at 1 in H. cbn [next_fd set_next_addr set_heap max_fd] in H.
    destruct (decide _) as [Hfd|Hfd]; [|done].
    injection H as <- <-. split; [done|]. split; [|done].
    cbn. rewrite app_nil_r. by destruct e.
Qed.

(** X3: the stage [PipeOpt] returns runs the command the options
    describe, with the context of the predecessor, but its stdin is always
    the link: the read end of the new pipe, through a tee into the
    predecessor's destination when the predecessor's stdout was set.  A
    stdin given by the option is dropped. *)
Theorem PipeOpt_successor (e : Exec) (opt : option ExecOption) (command : string)
    (args : list string) (w w' : World) (r : Exec) :
  PipeOpt map_range e opt command args w = Ok r w' →
  ∃ next w1,
    ExecOpt map_range (ctx e) opt command args w = Ok next w1
    ∧ cmd r = set_Stdin (Some (link_reader (Stdout (cmd e)) (next_fd w))) (cmd next)
    ∧ Stdin (cmd r) = Some (link_reader (Stdout (cmd e)) (next_fd w))
    ∧ Args (cmd r) = command :: args
    ∧ Stdout (cmd r) = stdout (options_of opt)
    ∧ Stderr (cmd r) = stderr (options_of opt)
    ∧ ctx r = ctx e.
Proof.
  intros H. destruct (PipeOpt_result _ _ _ _ _ _ _ H) as (next & w1 & Hnext & _ & -> & _).
  exists next, w1. split; [done|].
  destruct (ExecOpt_Ok map_range (ctx e) opt command args w)
    as (n & Hn & _ & _ & _ & _ & _ & _ & HA & _ & HO & HE).
  rewrite Hn in Hnext. injection Hnext as <- _.
  cbn. by rewrite HA, HO, HE.
Qed.

(** X4: [PipeOpt] grows the chain by one stage and changes only the
    immediate predecessor: its stdout becomes the write end of the new
    pipe, and when its stdout was set it gains the closer of that
    destination (if it is one) and the write end as closers; its other
    fields, and all earlier stages, are as before. *)
Theorem PipeOpt_chain (e : Exec) (opt : option ExecOption) (command : string)
    (args : list string) (w w' : World) (r : Exec) :
  PipeOpt map_range e opt command args w = Ok r w' →
  ∃ e',
    chain_of r = r :: e' :: tail (chain_of e)
    ∧ length (chain_of r) = S (length (chain_of e))
    ∧ cmd e' = set_Stdout (Some (WFile (S (next_fd w)))) (cmd e)
    ∧ closers e' = closers e ++ link_closers (Stdout (cmd e)) (S (next_fd w))
    ∧ prev e' = prev e ∧ ctx e' = ctx e ∧ stderr_buf e' = stderr_buf e
    ∧ onExit_ e' = onExit_ e ∧ exitCodes e' = exitCodes e.
Proof.
  intros H. destruct (PipeOpt_result _ _ _ _ _ _ _ H) as (next & w1 & _ & _ & -> & _).
  eexists. split.
  - rewrite chain_of_unfold. cbn [prev]. f_equal.
    rewrite chain_of_unfold. cbn [prev set_cmd set_closers].
    by rewrite (chain_of_unfold e).
  - split; [|done].
    rewrite !chain_of_unfold. cbn. by destruct (prev e).
Qed.

(** X5: [Pipe2Opt] does to the stderr of the predecessor what [PipeOpt]
    does to its stdout: the stage returned reads from the link whatever
    stdin its option gave, and the chain grows by one stage with only the
    stderr and the closers of the immediate predecessor changed. *)
Theorem Pipe2Opt_link (e : Exec) (opt : option ExecOption) (command : string)
    (args : list string) (w w' : World) (r : Exec) :
  Pipe2Opt map_range e opt command args w = Ok r w' →
  ∃ next w1 e',
    ExecOpt map_range (ctx e) opt command args w = Ok next w1
    ∧ cmd r = set_Stdin (Some (link_reader (Stderr (cmd e)) (next_fd w))) (cmd next)
    ∧ ctx r = ctx e
    ∧ chain_of r = r :: e' :: tail (chain_of e)
    ∧ cmd e' = set_Stderr (Some (WFile (S (next_fd w)))) (cmd e)
    ∧ closers e' = closers e ++ link_closers (Stderr (cmd e)) (S (next_fd w))
    ∧ prev e' = prev e ∧ ctx e' = ctx e ∧ stderr_buf e' = stderr_buf e
    ∧ onExit_ e' = onExit_ e ∧ exitCodes e' = exitCodes e.
Proof.
  intros H. destruct (Pipe2Opt_result _ _ _ _ _ _ _ H) as (next & w1 & Hnext & _ & -> & _).
  exists next, w1,
    (set_cmd (set_Stderr (Some (WFile (S (next_fd w)))) (cmd e))
       (set_closers (closers e ++ link_closers (Stderr (cmd e)) (S (next_fd w))) e)).
  split; [done|]. split; [done|]. split; [done|].
  split; [|done].
  rewrite chain_of_unfold. cbn [prev]. f_equal.
  rewrite chain_of_unfold. cbn [prev set_cmd set_closers].
  by rewrite (chain_of_unfold e).
Qed.

(** X6: construction and linking only allocate: [ExecOpt], [PipeOpt] and
    [Pipe2Opt] spawn no process, close nothing and wait for nothing, and
    leave the environment and the decode targets alone; [ExecOpt] opens no
    descriptor, and a link opens one pipe, two descriptors, whether it
    tees or not. *)
Theorem construction_only_allocates (e : Exec) (c : Ctx) (opt : option ExecOption)
    (command : string) (args : list string) (w : World) :
  (∃ s w', ExecOpt map_range c opt command args w = Ok s w'
     ∧ procs w' = procs w ∧ reaped w' = reaped w ∧ closed w' = closed w
     ∧ environ w' = environ w ∧ vars w' = vars w ∧ next_fd w' = next_fd w)
  ∧ (∀ r w', PipeOpt map_range e opt command args w = Ok r w'
             ∨ Pipe2Opt map_range e opt command args w = Ok r w' →
       procs w' = procs w ∧ reaped w' = reaped w ∧ closed w' = closed w
       ∧ environ w' = environ w ∧ vars w' = vars w
       ∧ next_fd w' = next_fd w + 2).
Proof.
  split.
  - destruct (ExecOpt_Ok map_range c opt command args w) as (s & Hs & _).
    eexists _, _. split; [exact Hs|]. done.
  - intros r w' [H|H].
    + by destruct (PipeOpt_result _ _ _ _ _ _ _ H) as (_ & _ & _ & _ & _ & ->).
    + by destruct (Pipe2Opt_result _ _ _ _ _ _ _ H) as (_ & _ & _ & _ & _ & ->).
Qed.

(** ** Run, Wait and the exit codes *)

(** X7: when a spawn fails, [Run] returns the error of [Start] and does
    not wait: the processes spawned before the failure are not waited
    for, no closer is closed, no buffer or target changes, and the exit
    codes of the handle stay as they were. *)
Theorem Run_spawn_failure (sel : nat → Select) (e : Exec) (w : World) (err : error) :
  (Start start_process e w).1.1 = Some err →
  Run start_process sel e w = Start start_process e w
  ∧ (Run start_process sel e w).1.1 = Some err
  ∧ ExitCodes (Run start_process sel e w).1.2 = ExitCodes e
  ∧ ∃ started,
      (Run start_process sel e w).2 = set_procs (procs w ++ started) w
      ∧ Forall (λ k, start_process k = None) started
      ∧ length started < length (chain_of e).
Proof.
  intros Herr.
  assert (Run start_process sel e w = Start start_process e w) as HR.
  { unfold Run. destruct (Start start_process e w) as [[o e'] w'].
    cbn in Herr. by rewrite Herr. }
  rewrite HR. split; [done|]. split; [done|].
  split.
  { rewrite Start_stage. unfold ExitCodes.
    by destruct (wire_stderr_fields e) as (_ & _ & _ & _ & _ & _ & ->). }
  unfold Start in *.
  match goal with |- context [start_loop start_process ?l w] =>
    destruct (start_loop_spec start_process l w) as (st & rest & Heq & Hw & Hok & Hfail);
    destruct (start_loop start_process l w) as [o w'] eqn:Hloop
  end.
  cbn [fst snd] in *. subst o. exists st. split; [done|]. split; [done|].
  destruct Hfail as (k & rest' & -> & _).
  apply (f_equal length) in Heq.
  rewrite length_reverse, length_fmap, length_app in Heq. cbn in Heq.
  assert (length (chain_of (wire_stderr e)) = length (chain_of e)) as <-; [|lia].
  rewrite (chain_of_unfold (wire_stderr e)), (chain_of_unfold e).
  destruct (wire_stderr_fields e) as (_ & -> & _). done.
Qed.

Lemma errors_As_joinError (es : list error) :
  errors_As_ExitError (joinError es) = head (omap errors_As_ExitError es).
Proof.
  cbn. induction es as [|x es IH]; [done|].
  cbn. destruct (errors_As_ExitError x); [done|]. apply IH.
Qed.

Lemma omap_omap_id {A B} (f : A → option B) (l : list (option A)) :
  omap f (omap id l) = omap (λ o, o ≫= f) l.
Proof.
  induction l as [|[a|] l IH]; cbn; [done| |done].
  destruct (f a); cbn; by rewrite IH.
Qed.

(** X8: what [errors.As] finds in the error [Wait] returns is the
    exit-status error of the first stage, from head to tail, whose process
    ended with one: not always the code of the tail that [ExitCode]
    reports. *)
Theorem Wait_error_exit_status (sel : nat → Select) (e : Exec) (w : World)
    (xs : list Exit) :
  Forall2 (λ (st : nat * Exec) x, sel st.1 = Received x) (visit_order (chain_of e)) xs →
  (Wait sel e w).1.1 ≫= errors_As_ExitError
  = head (omap (λ x, status x ≫= errors_As_ExitError) xs).
Proof.
  intros Hall. destruct (Wait_received sel e w xs Hall) as (w' & ->). cbn [fst].
  unfold errors_Join.
  assert (head (omap (λ x, status x ≫= errors_As_ExitError) xs)
          = head (omap errors_As_ExitError (omap id (status <$> xs)))) as ->.
  { rewrite omap_omap_id. clear. induction xs as [|x xs IH]; [done|].
    cbn. destruct (status x ≫= errors_As_ExitError); cbn; [done|]. apply IH. }
  destruct (omap id (status <$> xs)) as [|er es] eqn:Hes; [done|].
  cbn [fmap option_fmap option_map mbind option_bind].
  change (errors_As_ExitError (wrapError (Args (cmd e)) (joinError (er :: es))
                                 (Bytes (stderr_buf e) w')))
    with (errors_As_ExitError (joinError (er :: es))).
  apply errors_As_joinError.
Qed.

Lemma visit_order_last (e : Exec) : last (visit_order (chain_of e)) = Some (0, e).
Proof.
  unfold visit_order. rewrite last_reverse, chain_of_unfold. done.
Qed.

(** X9: a [Wait] that runs to completion records one code per stage, on
    the handle it is called on and on no other stage; [ExitCode] is then
    the code recorded for the tail, the stage at index 0. *)
Theorem ExitCode_after_Wait (sel : nat → Select) (e : Exec) (w : World)
    (xs : list Exit) :
  Forall2 (λ (st : nat * Exec) x, sel st.1 = Received x) (visit_order (chain_of e)) xs →
  ∃ x, sel 0 = Received x
    ∧ last xs = Some x
    ∧ ExitCode (Wait sel e w).1.2 = recorded_code (status x)
    ∧ length (ExitCodes (Wait sel e w).1.2) = length (chain_of e)
    ∧ prev (Wait sel e w).1.2 = prev e.
Proof.
  intros Hall. destruct (Wait_received sel e w xs Hall) as (w' & ->). cbn [fst snd].
  pose proof (Forall2_length _ _ _ Hall) as Hlen.
  assert (length (visit_order (chain_of e)) = length (chain_of e)) as Hvl.
  { unfold visit_order. by rewrite length_reverse, length_imap. }
  assert (0 < length (chain_of e)) as Hpos.
  { rewrite chain_of_unfold. cbn. lia. }
  destruct (last xs) as [x|] eqn:Hlast.
  2:{ apply last_None in Hlast. subst xs. cbn [length] in Hlen. lia. }
  exists x.
  assert (sel 0 = Received x) as Hsel0.
  { rewrite last_lookup in Hlast.
    pose proof (visit_order_last e) as Hl. rewrite last_lookup, Hlen in Hl.
    by destruct (Forall2_lookup_lr _ _ _ _ _ _ Hall Hl Hlast). }
  split; [done|]. split; [done|]. split; [|split; [|done]].
  - unfold ExitCode. cbn [exitCodes set_exitCodes].
    rewrite length_fmap.
    destruct (decide (length xs = 0)) as [H0|H0].
    { destruct xs; [done|]. done. }
    rewrite list_lookup_fmap. rewrite last_lookup in Hlast.
    replace (length xs - 1) with (pred (length xs)) by lia.
    rewrite Hlast. done.
  - unfold ExitCodes. cbn. rewrite length_fmap. lia.
Qed.

(** ** What a complete Wait does to the world *)

Lemma Write_heap_only (wr : Writer) (data : list byte) (w : World) :
  ∃ h, Write wr data w = set_heap h w.
Proof.
  revert w. induction wr as [a|f|id b|ws IH] using Writer_nested_ind; intros w.
  - by eexists.
  - exists (heap w). by destruct w.
  - exists (heap w). by destruct w.
  - rewrite Write_WMulti. revert w.
    induction IH as [|x ws Hx _ IHws]; intros w.
    + exists (heap w). by destruct w.
    + cbn. destruct (Hx w) as [h ->]. destruct (IHws (set_heap h w)) as [h' ->].
      by exists h'.
Qed.

Lemma Write_other (a : addr) (wr : Writer) (data : list byte) (w : World) :
  writes_into a wr = false → Bytes a (Write wr data w) = Bytes a w.
Proof.
  revert w. induction wr as [b|f|id b|ws IH] using Writer_nested_ind; intros w Hno;
    try done.
  - cbn in Hno. apply bool_decide_eq_false in Hno.
    unfold Bytes. cbn. by rewrite lookup_insert_ne.
  - rewrite Write_WMulti. revert w Hno.
    induction IH as [|x ws Hx _ IHws]; intros w Hno; [done|].
    cbn in Hno. apply orb_false_iff in Hno as [Hnx Hnws].
    cbn. rewrite IHws by done. by apply Hx.
Qed.

Lemma Write_buffer (a : addr) (data : list byte) (w : World) :
  Bytes a (Write (WBuffer a) data w) = Bytes a w ++ data.
Proof. unfold Bytes. cbn. by rewrite lookup_insert_eq. Qed.

Lemma cmd_Wait_shape (c : Cmd) (x : Exit) (w : World) :
  ∃ h, cmd_Wait c x w = set_reaped (reaped w ++ [c]) (set_heap h w).
Proof.
  unfold cmd_Wait.
  destruct (Stdout c) as [o|]; destruct (Stderr c) as [r|].
  - destruct (Write_heap_only o (out_bytes x) w) as [h ->].
    destruct (Write_heap_only r (err_bytes x) (set_heap h w)) as [h' ->]. by exists h'.
  - destruct (Write_heap_only o (out_bytes x) w) as [h ->]. by exists h.
  - destruct (Write_heap_only r (err_bytes x) w) as [h ->]. by exists h.
  - exists (heap w). by destruct w.
Qed.

Lemma callbacks_only_vars (fs : list func) (w : World) :
  Forall is_decode fs → ∃ vs, foldl (λ w f, f w) w fs = set_vars vs w.
Proof.
  intros Hfs. apply (callbacks_vars fs w w Hfs), same_but_vars_refl.
Qed.

(** The stages a loop of [Wait] has gone through, in the logs of the
    world. *)
Lemma wait_loop_logs (sel : nat → Select) (stages : list (nat * Exec))
    (xs : list Exit) (errs : list (option error)) (codes : list Z) (w : World) :
  Forall (λ st : nat * Exec, Forall is_decode (onExit_ st.2)) stages →
  Forall2 (λ (st : nat * Exec) x, sel st.1 = Received x) stages xs →
  closed (wait_loop sel stages errs codes w).2
  = closed w ++ concat (closers <$> stages.*2)
  ∧ reaped (wait_loop sel stages errs codes w).2 = reaped w ++ (cmd <$> stages.*2)
  ∧ procs (wait_loop sel stages errs codes w).2 = procs w
  ∧ next_fd (wait_loop sel stages errs codes w).2 = next_fd w.
Proof.
  intros Hdec Hall. revert errs codes w Hdec.
  induction Hall as [|[i s] x stages xs Hsel _ IH]; intros errs codes w Hdec.
  - cbn. by rewrite !app_nil_r.
  - apply Forall_cons in Hdec as [Hs Hdec]. cbn in Hsel, Hs.
    cbn [wait_loop]. rewrite Hsel.
    destruct (IH (errs ++ [status x]) (codes ++ [recorded_code (status x)])
                (foldl (λ w f, f w) (worker s x w) (onExit_ s)) Hdec)
      as (-> & -> & -> & ->).
    destruct (callbacks_only_vars (onExit_ s) (worker s x w) Hs) as [vs ->].
    unfold worker. destruct (cmd_Wait_shape (cmd s) x
                               (set_closed (closed w ++ closers s) w)) as [h ->].
    cbn. rewrite <- !app_assoc. done.
Qed.

(** X10: when every callback of the chain is a decode callback, a [Wait]
    that runs to completion closes the closers of each stage, stage after
    stage from head to tail, each registered closer once, waits for each
    process once in that order, spawns nothing and opens no descriptor. *)
Theorem Wait_closes_and_reaps (sel : nat → Select) (e : Exec) (w : World)
    (xs : list Exit) :
  Forall (λ s, Forall is_decode (onExit_ s)) (chain_of e) →
  Forall2 (λ (st : nat * Exec) x, sel st.1 = Received x) (visit_order (chain_of e)) xs →
  closed (Wait sel e w).2 = closed w ++ concat (closers <$> head_to_tail e)
  ∧ reaped (Wait sel e w).2 = reaped w ++ (cmd <$> head_to_tail e)
  ∧ procs (Wait sel e w).2 = procs w
  ∧ next_fd (Wait sel e w).2 = next_fd w.
Proof.
  intros Hdec Hall.
  assert (Forall (λ st : nat * Exec, Forall is_decode (onExit_ st.2))
            (visit_order (chain_of e))) as Hst.
  { apply Forall_forall. intros [i s] Hin. cbn.
    rewrite Forall_forall in Hdec. apply Hdec.
    rewrite <- elem_of_reverse, <- visit_order_stages.
    apply list_elem_of_fmap. by exists (i, s). }
  pose proof (wait_loop_logs sel _ xs [] [] w Hst Hall) as Hlogs.
  rewrite visit_order_stages in Hlogs. fold (head_to_tail e) in Hlogs.
  unfold Wait.
  destruct (wait_loop sel (visit_order (chain_of e)) [] [] w)
    as [[er|[errs codes]] w'] eqn:Hw; cbn [snd] in Hlogs.
  - pose proof (wait_loop_received sel _ xs [] [] w Hall) as Hr.
    rewrite Hw in Hr. done.
  - by destruct (errors_Join errs).
Qed.

(** ** The diagnostic text of the error *)

Lemma cmd_Wait_other (a : addr) (c : Cmd) (x : Exit) (w : World) :
  stream_writes_into a (Stdout c) = false →
  stream_writes_into a (Stderr c) = false →
  Bytes a (cmd_Wait c x w) = Bytes a w.
Proof.
  intros Ho He. unfold cmd_Wait.
  change (Bytes a (set_reaped ?r ?w')) with (Bytes a w').
  destruct (Stdout c) as [o|]; destruct (Stderr c) as [r|]; cbn in Ho, He;
    rewrite ?Write_other by done; done.
Qed.

Lemma callbacks_Bytes (a : addr) (fs : list func) (w : World) :
  Forall is_decode fs → Bytes a (foldl (λ w f, f w) w fs) = Bytes a w.
Proof. intros Hfs. by destruct (callbacks_only_vars fs w Hfs) as [vs ->]. Qed.

Lemma wait_loop_other (a : addr) (sel : nat → Select) (stages : list (nat * Exec))
    (errs : list (option error)) (codes : list Z) (w : World) :
  Forall (λ st : nat * Exec, Forall is_decode (onExit_ st.2) ∧ spares a st.2) stages →
  Bytes a (wait_loop sel stages errs codes w).2 = Bytes a w.
Proof.
  intros H. revert errs codes w.
  induction H as [|[i s] stages [Hdec [Ho He]] _ IH]; intros errs codes w; [done|].
  cbn [wait_loop]. destruct (sel i) as [er|x]; [done|].
  rewrite IH. rewrite callbacks_Bytes by done.
  unfold worker. by rewrite cmd_Wait_other.
Qed.

Lemma visit_order_cons (s : Exec) (rest : list Exec) :
  visit_order (s :: rest) = reverse (imap (λ i t, (S i, t)) rest) ++ [(0, s)].
Proof. unfold visit_order. by rewrite imap_cons, reverse_cons. Qed.

(** X11: when every spawn succeeds and every stage's result is received,
    the error [Run] returns is nil exactly when every process ended
    without error, and otherwise names the arguments of the tail, joins
    the errors of the stages from head to tail, and carries what the
    diagnostic buffer of the tail held followed by what the tail's process
    wrote to its stderr, with or without a stderr of the caller.  The
    stderr of the other stages is not in it.  (The callbacks are decode
    callbacks, and no stage writes into the tail's diagnostic buffer by
    another way.) *)
Theorem Run_error_diagnostics (sel : nat → Select) (e : Exec) (w : World)
    (xs : list Exit) :
  (∀ k, start_process k = None) →
  Forall (λ s, Forall is_decode (onExit_ s) ∧ spares (stderr_buf e) s) (chain_of e) →
  Forall2 (λ (st : nat * Exec) x, sel st.1 = Received x) (visit_order (chain_of e)) xs →
  ∃ x, last xs = Some x
    ∧ (Run start_process sel e w).1.1
      = (λ er, wrapError (Args (cmd e)) er (Bytes (stderr_buf e) w ++ err_bytes x))
          <$> errors_Join (status <$> xs).
Proof.
  intros Hspawn Hchain Hall.
  set (a := stderr_buf e) in *.
  set (e' := wire_stderr e).
  destruct (wire_stderr_fields e) as (Hwired & Hprev & _ & Hbuf & _ & Hon & _).
  fold e' in Hwired, Hprev, Hbuf, Hon.
  (* the chain after the wiring: the same stages before the tail *)
  rewrite (chain_of_unfold e) in Hchain, Hall.
  apply Forall_cons in Hchain as [[Hdec_e [Hso He]] Hrest].
  set (rest := match prev e with Some p => chain_of p | None => [] end) in *.
  assert (chain_of e' = e' :: rest) as Hchain'.
  { rewrite chain_of_unfold, Hprev. done. }
  rewrite visit_order_cons in Hall.
  apply Forall2_app_inv_l in Hall as (xs1 & xs2 & Hall1 & Hall2 & ->).
  apply Forall2_cons_inv_l in Hall2 as (x & xs2' & Hsel0 & Hnil & ->).
  apply Forall2_nil_inv_l in Hnil as ->. cbn in Hsel0.
  exists x. split; [by rewrite last_snoc|].
  (* Start spawns everything *)
  assert (∃ w0, Start start_process e w = (None, e', w0) ∧ Bytes a w0 = Bytes a w)
    as (w0 & HStart & Hw0).
  { unfold Start. fold e'.
    destruct (start_loop_spec start_process (reverse (cmd <$> chain_of e')) w)
      as (st & rs & _ & Hw & Hok & Hres).
    destruct (start_loop start_process (reverse (cmd <$> chain_of e')) w)
      as [o w0] eqn:Hloop. cbn [fst snd] in *.
    destruct o as [er|].
    { destruct Hres as (k & ? & _ & Hk). by rewrite Hspawn in Hk. }
    exists w0. split; [done|]. by rewrite Hw. }
  unfold Run. rewrite HStart.
  (* Wait on the wired chain *)
  assert (Forall2 (λ (st : nat * Exec) x, sel st.1 = Received x)
            (visit_order (chain_of e')) (xs1 ++ [x])) as Hall'.
  { rewrite Hchain', visit_order_cons. apply Forall2_app; [done|].
    by repeat constructor. }
  unfold Wait. rewrite Hchain', visit_order_cons, wait_loop_app.
  set (init := reverse (imap (λ i t, (S i, t)) rest)) in *.
  pose proof (wait_loop_received sel init xs1 [] [] w0 Hall1) as Hinit.
  assert (Bytes a (wait_loop sel init [] [] w0).2 = Bytes a w0) as HB1.
  { apply wait_loop_other. apply Forall_forall. intros [i s] Hin. cbn.
    rewrite Forall_forall in Hrest. apply Hrest.
    unfold init in Hin. rewrite elem_of_reverse in Hin.
    apply list_elem_of_lookup in Hin as [j Hj].
    rewrite list_lookup_imap in Hj.
    destruct (rest !! j) as [t|] eqn:Ht; [|done].
    injection Hj as _ <-. by eapply list_elem_of_lookup_2. }
  destruct (wait_loop sel init [] [] w0) as [[er|[errs codes]] w1];
    cbn [fst snd] in *; [done|].
  injection Hinit as -> ->.
  cbn [wait_loop]. rewrite Hsel0. cbn [app].
  rewrite fmap_app. cbn [fmap list_fmap].
  set (w2 := foldl (λ w f, f w) (worker e' x w1) (onExit_ e')).
  assert (Bytes a w2 = Bytes a w ++ err_bytes x) as HB2.
  { unfold w2. rewrite callbacks_Bytes by by rewrite Hon.
    unfold worker, cmd_Wait.
    change (Bytes a (set_reaped ?r ?w')) with (Bytes a w').
    assert (Stdout (cmd e') = Stdout (cmd e)) as ->.
    { unfold e', wire_stderr. by destruct (Stderr (cmd e)). }
    unfold wired in Hwired. rewrite Hwired.
    set (w1' := match Stdout (cmd e) with
                | Some wr => Write wr (out_bytes x) (set_closed (closed w1 ++ closers e') w1)
                | None => set_closed (closed w1 ++ closers e') w1
                end).
    assert (Bytes a w1' = Bytes a w) as Hw1'.
    { unfold w1'. destruct (Stdout (cmd e)) as [o|]; cbn in Hso.
      - rewrite Write_other by done.
        change (Bytes a (set_closed ?c ?w')) with (Bytes a w'). congruence.
      - change (Bytes a (set_closed ?c ?w')) with (Bytes a w'). congruence. }
    destruct (Stderr (cmd e)) as [dest|]; cbn in He.
    - rewrite Write_WMulti. cbn [foldl].
      rewrite Write_other by done. rewrite Write_buffer. by fold a; rewrite Hw1'.
    - rewrite Write_buffer. by fold a; rewrite Hw1'. }
  destruct (errors_Join (status <$> xs1 ++ [x])) as [er|] eqn:HJ.
  - unfold errors_Join in HJ. rewrite fmap_app in HJ. cbn [fmap list_fmap] in HJ.
    unfold errors_Join. 
    destruct (omap id ((status <$> xs1) ++ [status x])) as [|z zs]; [done|].
    injection HJ as <-. cbn. rewrite Hbuf. fold a. rewrite HB2.
    assert (Args (cmd e') = Args (cmd e)) as ->; [|done].
    unfold e', wire_stderr. by destruct (Stderr (cmd e)).
  - unfold errors_Join in HJ |- *. rewrite fmap_app in HJ. cbn [fmap list_fmap] in HJ.
    by destruct (omap id ((status <$> xs1) ++ [status x])).
Qed.

(** ** The decoder option among other options *)

(** X12: the stdout option applied last wins, but the decode callback
    stays registered.  With [WithStdout] after [WithStdoutJSONDecoder] the
    process writes to the caller's writer, nothing reaches the capture
    buffer, and the callback decodes the empty buffer whatever the process
    printed; with [WithStdoutJSONDecoder] after [WithStdout] the stdout is
    the capture buffer and the caller's writer is dropped. *)
Theorem decoder_and_WithStdout unmarshal (out : addr) (c : Ctx) (wr : Writer)
    (command : string) (args : list string) (w0 w1 w2 : World) (dec : ExecOption)
    (s : Exec) (sel : nat → Select) (x : Exit) (v : V) :
  WithStdoutJSONDecoder unmarshal out w0 = Ok dec w1 →
  ExecOpt map_range c (Some (ExecOptions [dec; WithStdout wr])) command args w1
  = Ok s w2 →
  writes_into (next_addr w0) wr = false →
  (∀ k, start_process k = None) → sel 0 = Received x →
  vars w0 !! out = Some v →
  Stdout (cmd s) = Some wr
  ∧ onExit_ s = [decode_callback unmarshal (next_addr w0) out]
  ∧ Bytes (next_addr w0) (Run start_process sel s w2).2 = []
  ∧ vars (Run start_process sel s w2).2 !! out = Some (unmarshal [] v).1
  ∧ ∀ s' w2',
      ExecOpt map_range c (Some (ExecOptions [WithStdout wr; dec])) command args w1
      = Ok s' w2' →
      Stdout (cmd s') = Some (WBuffer (next_addr w0))
      ∧ onExit_ s' = [decode_callback unmarshal (next_addr w0) out].
Proof.
  intros Hdec Hs Hwr Hspawn Hsel Hv.
  destruct (WithStdoutJSONDecoder_Ok unmarshal out w0) as (dec0 & Hdec0 & Happ).
  rewrite Hdec0 in Hdec. injection Hdec as <- <-.
  set (buf := next_addr w0) in *.
  destruct (ExecOpt_Ok map_range c (Some (ExecOptions [dec0; WithStdout wr])) command args
              (set_next_addr (S buf) (set_heap (<[buf := []]> (heap w0)) w0)))
    as (s0 & Hs0 & Hp & _ & Hb & Hcl & Hon & _ & _ & _ & Hso & Hse).
  rewrite Hs0 in Hs. injection Hs as <- <-.
  cbn [options_of] in Hon, Hso, Hse.
  change (apply (ExecOptions [dec0; WithStdout wr]) zero_cmdOptions)
    with (apply (WithStdout wr) (apply dec0 zero_cmdOptions)) in Hon, Hso, Hse.
  destruct (Happ zero_cmdOptions) as (_ & Hon0 & _ & _ & Hse0 & _).
  cbn in Hso. cbn [apply WithStdout onExit stderr] in Hon, Hse.
  change (onExit (dec0 zero_cmdOptions)) with (onExit (apply dec0 zero_cmdOptions)) in Hon.
  change (stderr (dec0 zero_cmdOptions)) with (stderr (apply dec0 zero_cmdOptions)) in Hse.
  rewrite Hon0 in Hon. rewrite Hse0 in Hse. cbn in Hon, Hse, Hb.
  split; [done|]. split; [done|].
  assert (Bytes buf (Run start_process sel s0
                       (set_next_addr (S (S buf))
                          (set_heap (<[S buf := []]> (<[buf := []]> (heap w0))) w0))).2 = []
          ∧ vars (Run start_process sel s0
                    (set_next_addr (S (S buf))
                       (set_heap (<[S buf := []]> (<[buf := []]> (heap w0))) w0))).2 !! out
            = Some (unmarshal [] v).1) as [HB HV].
  { set (w2 := set_next_addr _ _).
    assert (Bytes buf w2 = []) as HB2.
    { unfold Bytes, w2. cbn. rewrite lookup_insert_ne by lia.
      by rewrite lookup_insert_eq. }
    destruct (wire_stderr_fields s0) as (Hwired & Hp' & _ & Hbuf' & _ & Hon' & _).
    unfold wired in Hwired. rewrite Hse in Hwired.
    assert (Stdout (cmd (wire_stderr s0)) = Some wr) as Hso'.
    { unfold wire_stderr. rewrite Hse. cbn. done. }
    unfold Run. rewrite (Start_head start_process s0 w2 Hp (Hspawn _)).
    rewrite (Wait_head sel (wire_stderr s0) _ x) by congruence. cbn [snd].
    rewrite Hon', Hon. cbn [foldl].
    set (w3 := worker _ _ _).
    assert (Bytes buf w3 = [] ∧ vars w3 = vars w0) as [HB3 HV3].
    { unfold w3, worker. split.
      - rewrite cmd_Wait_other.
        + done.
        + by rewrite Hso'.
        + rewrite Hwired, Hb. cbn. apply bool_decide_eq_false. lia.
      - destruct (cmd_Wait_shape (cmd (wire_stderr s0)) x
                    (set_closed (closed (set_procs (procs w2 ++ [cmd (wire_stderr s0)]) w2)
                                 ++ closers (wire_stderr s0))
                       (set_procs (procs w2 ++ [cmd (wire_stderr s0)]) w2))) as [h ->].
        done. }
    unfold decode_callback. rewrite HV3, Hv, HB3.
    split; [done|]. cbn. by rewrite lookup_insert_eq. }
  split; [exact HB|]. split; [exact HV|].
  intros s' w2' Hs'.
  destruct (ExecOpt_Ok map_range c (Some (ExecOptions [WithStdout wr; dec0])) command args
              (set_next_addr (S buf) (set_heap (<[buf := []]> (heap w0)) w0)))
    as (s1 & Hs1 & _ & _ & _ & _ & Hon1 & _ & _ & _ & Hso1 & _).
  rewrite Hs1 in Hs'. injection Hs' as <- _.
  cbn [options_of] in Hon1, Hso1.
  change (apply (ExecOptions [WithStdout wr; dec0]) zero_cmdOptions)
    with (apply dec0 (apply (WithStdout wr) zero_cmdOptions)) in Hon1, Hso1.
  destruct (Happ (apply (WithStdout wr) zero_cmdOptions)) as (Hso2 & Hon2 & _).
  rewrite Hso2 in Hso1. rewrite Hon2 in Hon1. done.
Qed.

End MoreProperties.

(** * Properties of the timestamps *)

Section FilesProperties.

Context {FS : Type}.
Variable os_Stat : FS → string → Files.Time + error.
Variable filepath_Glob : FS → string → list string + error.

#[local] Abbreviation modTime := (Files.modTime os_Stat).
#[local] Abbreviation LatestTimestamp := (Files.LatestTimestamp os_Stat filepath_Glob).
#[local] Abbreviation TargetNeedsUpdate := (Files.TargetNeedsUpdate os_Stat filepath_Glob).
#[local] Abbreviation FileUpToDate := (Files.FileUpToDate os_Stat filepath_Glob).
#[local] Abbreviation all_matches := (Files.all_matches filepath_Glob).

Lemma After_lt (t u : Files.Time) : Files.After t u = true ↔ (u < t)%Z.
Proof. unfold Files.After. apply bool_decide_eq_true. Qed.

(** The inner loop keeps the greatest time seen. *)
Lemma latest_matches_spec (fs : FS) (ms : list string) (maxTs : Files.Time) (any : bool) :
  let r := Files.latest_matches os_Stat fs ms maxTs any in
  (maxTs ≤ r.1)%Z
  ∧ Forall (λ p, (modTime fs p ≤ r.1)%Z) ms
  ∧ (r.1 = maxTs ∨ ∃ p, p ∈ ms ∧ r.1 = modTime fs p)
  ∧ r.2 = any || bool_decide (ms ≠ []).
Proof.
  revert maxTs any. induction ms as [|p ms IH]; intros maxTs any; cbn zeta.
  - cbn. rewrite orb_false_r. repeat split; [lia|done|by left].
  - cbn [Files.latest_matches].
    set (m := if Files.After (modTime fs p) maxTs then modTime fs p else maxTs).
    assert ((maxTs ≤ m)%Z ∧ (modTime fs p ≤ m)%Z ∧ (m = maxTs ∨ m = modTime fs p))
      as (Hm1 & Hm2 & Hm3).
    { unfold m. destruct (Files.After _ _) eqn:HA.
      - apply After_lt in HA. lia.
      - apply not_true_iff_false in HA. rewrite After_lt in HA. lia. }
    destruct (IH m true) as (H1 & H2 & H3 & H4). cbn zeta in *.
    split; [lia|]. split; [constructor; [lia|done]|]. split.
    + destruct H3 as [->|(q & Hq & ->)].
      * destruct Hm3 as [->| ->]; [by left|]. right. exists p. split; [left|done].
      * right. exists q. split; [by right|done].
    + rewrite H4. cbn. by rewrite orb_true_r.
Qed.

Lemma latest_patterns_spec (fs : FS) (files all : list string)
    (maxTs : Files.Time) (any : bool) :
  all_matches fs files = Some all →
  ∃ m, Files.latest_patterns os_Stat filepath_Glob fs files maxTs any
       = Some (m, any || bool_decide (all ≠ []))
     ∧ (maxTs ≤ m)%Z
     ∧ Forall (λ p, (modTime fs p ≤ m)%Z) all
     ∧ (m = maxTs ∨ ∃ p, p ∈ all ∧ m = modTime fs p).
Proof.
  revert all maxTs any. induction files as [|pat files IH]; intros all maxTs any Hall.
  - injection Hall as <-. exists maxTs. cbn. rewrite orb_false_r.
    repeat split; [lia|done|by left].
  - cbn in Hall |- *. destruct (filepath_Glob fs pat) as [ms|er]; [|done].
    destruct (all_matches fs files) as [more|] eqn:Hmore; [|done].
    injection Hall as <-.
    pose proof (latest_matches_spec fs ms maxTs any) as Hin. cbn zeta in Hin.
    destruct (Files.latest_matches os_Stat fs ms maxTs any) as [m1 a1].
    cbn [fst snd] in Hin. destruct Hin as (H1 & H2 & H3 & ->).
    destruct (IH more m1 (any || bool_decide (ms ≠ [])) eq_refl)
      as (m & -> & G1 & G2 & G3).
    exists m. split.
    + f_equal. f_equal. rewrite <- orb_assoc. f_equal.
      destruct ms, more; done.
    + split; [lia|]. split.
      * apply Forall_app. split; [|done].
        eapply Forall_impl; [exact H2|]. cbn. intros; lia.
      * destruct G3 as [->|(q & Hq & ->)].
        -- destruct H3 as [->|(q & Hq & ->)]; [by left|].
           right. exists q. split; [|done]. apply elem_of_app. by left.
        -- right. exists q. split; [|done]. apply elem_of_app. by right.
Qed.

Lemma all_matches_None (fs : FS) (files : list string) :
  all_matches fs files = None ↔ Exists (λ p, ∃ er, filepath_Glob fs p = inr er) files.
Proof.
  induction files as [|pat files IH]; cbn.
  - split; [done|]. intros H. inversion H.
  - rewrite Exists_cons. destruct (filepath_Glob fs pat) as [ms|er].
    + destruct (all_matches fs files) as [more|]; cbn.
      * split; [done|]. intros [[? [=]]|H]. by apply IH in H.
      * split; [|done]. intros _. right. by apply IH.
    + split; [|done]. intros _. left. by exists er.
Qed.

Lemma LatestTimestamp_bounds (fs : FS) (files all : list string) :
  all_matches fs files = Some all →
  (Files.zero_Time ≤ LatestTimestamp fs files)%Z
  ∧ Forall (λ p, (modTime fs p ≤ LatestTimestamp fs files)%Z) all
  ∧ (LatestTimestamp fs files = Files.zero_Time
     ∨ ∃ p, p ∈ all ∧ LatestTimestamp fs files = modTime fs p).
Proof.
  intros Hall. unfold Files.LatestTimestamp.
  destruct (latest_patterns_spec fs files all Files.zero_Time false Hall)
    as (m & -> & H1 & H2 & H3).
  cbn [orb]. destruct all as [|p all].
  - cbn. repeat split; [done|done|by left].
  - rewrite bool_decide_true by done. cbn [negb]. done.
Qed.

(** X13: when every pattern is well formed, [LatestTimestamp] is the
    greatest of the zero time and the modification times of the matched
    files, a file that cannot be examined counting as the zero time: it is
    never before the zero time, no matched file is later, and it is the
    zero time or the time of a matched file. *)
Theorem LatestTimestamp_greatest (fs : FS) (files all : list string) :
  all_matches fs files = Some all →
  (Files.zero_Time ≤ LatestTimestamp fs files)%Z
  ∧ Forall (λ p, (modTime fs p ≤ LatestTimestamp fs files)%Z) all
  ∧ (LatestTimestamp fs files = Files.zero_Time
     ∨ ∃ p, p ∈ all ∧ LatestTimestamp fs files = modTime fs p).
Proof. apply LatestTimestamp_bounds. Qed.

(** X14: one malformed pattern among the sources makes [LatestTimestamp]
    the zero time, whatever the other patterns match; a target that
    exists with a time not before the zero time, or that does not exist,
    is then reported not to need an update. *)
Theorem LatestTimestamp_glob_error (fs : FS) (target : string) (files : list string) :
  Exists (λ p, ∃ er, filepath_Glob fs p = inr er) files →
  LatestTimestamp fs files = Files.zero_Time
  ∧ ((Files.zero_Time ≤ modTime fs target)%Z →
     TargetNeedsUpdate fs target files = false
     ∧ FileUpToDate target files fs = true).
Proof.
  intros Hbad. apply all_matches_None in Hbad.
  assert (LatestTimestamp fs files = Files.zero_Time) as HL.
  { unfold Files.LatestTimestamp.
    assert (∀ m a, Files.latest_patterns os_Stat filepath_Glob fs files m a = None) as ->;
      [|done].
    clear target. induction files as [|pat files IH]; intros m a; [done|].
    cbn in Hbad |- *. destruct (filepath_Glob fs pat) as [ms|er]; [|done].
    destruct (Files.latest_matches os_Stat fs ms m a) as [m1 a1].
    apply IH. by destruct (all_matches fs files). }
  split; [done|]. intros Ht.
  unfold Files.FileUpToDate, Files.TargetNeedsUpdate. rewrite HL.
  assert (Files.After Files.zero_Time (modTime fs target) = false) as ->; [|done].
  apply not_true_iff_false. rewrite After_lt. lia.
Qed.

Lemma TargetNeedsUpdate_spec (fs : FS) (target : string) (sources all : list string) :
  all_matches fs sources = Some all →
  TargetNeedsUpdate fs target sources = true
  ↔ (modTime fs target < Files.zero_Time)%Z
    ∨ ∃ p, p ∈ all ∧ (modTime fs target < modTime fs p)%Z.
Proof.
  intros Hall.
  destruct (LatestTimestamp_bounds fs sources all Hall) as (H0 & Hle & Hex).
  unfold Files.TargetNeedsUpdate. rewrite After_lt. split.
  - intros Hlt. destruct Hex as [Hz|(p & Hp & Hz)].
    + left. by rewrite <- Hz.
    + right. exists p. split; [done|]. by rewrite <- Hz.
  - intros [Hlt|(p & Hp & Hlt)]; [lia|].
    rewrite Forall_forall in Hle. specialize (Hle p Hp). lia.
Qed.

(** X15: when every pattern is well formed, a target needs an update
    exactly when some matched source is later than the target, or the
    target carries a time before the zero time.  A target that does not
    exist counts as the zero time: it needs an update exactly when some
    matched source has a time after the zero time, so with no matching
    source a missing target is reported up to date. *)
Theorem TargetNeedsUpdate_iff (fs : FS) (target : string) (sources all : list string) :
  all_matches fs sources = Some all →
  (TargetNeedsUpdate fs target sources = true
   ↔ (modTime fs target < Files.zero_Time)%Z
     ∨ ∃ p, p ∈ all ∧ (modTime fs target < modTime fs p)%Z)
  ∧ (Files.Exists os_Stat fs target = false →
     (TargetNeedsUpdate fs target sources = true
      ↔ ∃ p, p ∈ all ∧ (Files.zero_Time < modTime fs p)%Z)
     ∧ (all = [] → FileUpToDate target sources fs = true)).
Proof.
  intros Hall.
  pose proof (TargetNeedsUpdate_spec fs target sources all Hall) as Hiff.
  split; [exact Hiff|].
  intros Hmiss.
  assert (modTime fs target = Files.zero_Time) as Hz.
  { unfold Files.Exists in Hmiss. unfold Files.modTime.
    by destruct (os_Stat fs target). }
  split.
  - rewrite Hiff, Hz. split; [|by right]. intros [Hlt|H]; [lia|done].
  - intros ->. unfold Files.FileUpToDate.
    apply negb_true_iff, not_true_iff_false. intros HT.
    apply Hiff in HT as [Hlt|(p & Hp & _)]; [rewrite Hz in Hlt; lia|].
    by apply elem_of_nil in Hp.
Qed.

End FilesProperties.

(** * Properties of the targets *)

Section FindProperties.

Import Makefile.

Context {St : Type}.

#[local] Abbreviation MWorld := (@Makefile.MWorld St).
#[local] Abbreviation MakeTarget := (@Makefile.MakeTarget St).
#[local] Abbreviation Makefile := (@Makefile.Makefile St).

Variable strings_EqualFold : string → string → bool.

#[local] Abbreviation Find := (Makefile.Find strings_EqualFold).
#[local] Abbreviation Depend := (Makefile.Depend strings_EqualFold).

Lemma find_target_Some (nm : string) (ts : list MakeTarget) (t : MakeTarget) :
  find_target strings_EqualFold nm ts = Some t
  ↔ ∃ before after,
      ts = before ++ t :: after
      ∧ strings_EqualFold (Name t) nm = true
      ∧ Forall (λ u, strings_EqualFold (Name u) nm = false) before.
Proof.
  induction ts as [|u ts IH]; cbn.
  - split; [done|]. intros (before & after & H & _). by destruct before.
  - destruct (strings_EqualFold (Name u) nm) eqn:Hu.
    + split.
      * intros [= <-]. by exists [], ts.
      * intros (before & after & H & Ht & Hb). destruct before as [|b before].
        -- by injection H as <- _.
        -- injection H as <- _. apply Forall_cons in Hb as [Hb _]. congruence.
    + rewrite IH. split.
      * intros (before & after & -> & Ht & Hb). exists (u :: before), after.
        split; [done|]. split; [done|]. by constructor.
      * intros (before & after & H & Ht & Hb). destruct before as [|b before].
        -- injection H as <- _. congruence.
        -- injection H as <- ->. apply Forall_cons in Hb as [_ Hb].
           by exists before, after.
Qed.

Lemma find_target_None (nm : string) (ts : list MakeTarget) :
  find_target strings_EqualFold nm ts = None
  ↔ Forall (λ u, strings_EqualFold (Name u) nm = false) ts.
Proof.
  induction ts as [|u ts IH]; cbn; [by split|].
  rewrite Forall_cons. destruct (strings_EqualFold (Name u) nm).
  - split; [done|]. by intros [[=] _].
  - rewrite IH. tauto.
Qed.

(** X16: [Find] returns the first target, in the order of the makefile,
    whose name equals the given one under case folding, and nil exactly
    when no target's name does. *)
Theorem Find_first_match (mf : Makefile) (nm : string) :
  (∀ t, Find mf nm = Some t
        ↔ ∃ before after,
            targets mf = before ++ t :: after
            ∧ strings_EqualFold (Name t) nm = true
            ∧ Forall (λ u, strings_EqualFold (Name u) nm = false) before)
  ∧ (Find mf nm = None
     ↔ Forall (λ u, strings_EqualFold (Name u) nm = false) (targets mf)).
Proof.
  split; [intros t; apply find_target_Some|apply find_target_None].
Qed.

Lemma lookup_all_known (mf : Makefile) (known : list string) :
  Forall (λ n, is_Some (Find mf n)) known →
  ∃ ts, Forall2 (λ n t, Find mf n = Some t) known ts
      ∧ ∀ rest found,
          lookup_all strings_EqualFold mf (known ++ rest) found
          = lookup_all strings_EqualFold mf rest (found ++ ts).
Proof.
  induction 1 as [|n known [t Ht] _ (ts & Hts & IH)].
  - exists []. split; [constructor|]. intros rest found. by rewrite app_nil_r.
  - exists (t :: ts). split; [by constructor|]. intros rest found.
    cbn. rewrite Ht, IH. by rewrite <- app_assoc.
Qed.

Lemma Depend_known (mf : Makefile) (names : list string) (ts : list MakeTarget)
    (w : MWorld) :
  Forall2 (λ n t, Find mf n = Some t) names ts →
  Depend mf names w = exec_all ts w.
Proof.
  intros H. unfold Makefile.Depend. destruct (decide (length names = 0)) as [H0|_].
  - destruct names; [|done]. by apply Forall2_nil_inv_l in H as ->.
  - assert (Forall (λ n, is_Some (Find mf n)) names) as Hknown.
    { clear -H. induction H; constructor; eauto. }
    destruct (lookup_all_known mf names Hknown) as (ts' & Hts' & Heq).
    specialize (Heq [] []). rewrite app_nil_r in Heq. rewrite Heq. cbn.
    assert (ts' = ts) as ->; [|done].
    clear -H Hts'. revert ts' Hts'.
    induction H as [|n t names ts Hn _ IH]; intros ts' Hts'.
    + by apply Forall2_nil_inv_l in Hts'.
    + apply Forall2_cons_inv_l in Hts' as (t' & ts'' & Ht' & Hts'' & ->).
      f_equal; [congruence|by apply IH].
Qed.

Lemma exec_all_app (a b : list MakeTarget) (w : MWorld) :
  exec_all (a ++ b) w
  = match exec_all a w with
    | (Return None, w1) => exec_all b w1
    | r => r
    end.
Proof.
  revert w. induction a as [|t a IH]; intros w; [done|].
  cbn. destruct (exec t w) as [[[er|]|] w1]; [done| |done]. apply IH.
Qed.

(** X17: if one of the names given to [Depend] has no target, [Depend]
    returns the error for the first such name and no target runs and
    nothing is logged, not even for the targets named before it. *)
Theorem Depend_unknown_name (mf : Makefile) (known : list string) (bad : string)
    (rest : list string) (w : MWorld) :
  Forall (λ n, is_Some (Find mf n)) known →
  Find mf bad = None →
  Depend mf (known ++ bad :: rest) w
  = (Return (Some (unknown_target bad)), w).
Proof.
  intros Hknown Hbad. unfold Makefile.Depend.
  destruct (decide _) as [H0|_].
  { rewrite length_app in H0. cbn in H0. lia. }
  destruct (lookup_all_known mf known Hknown) as (ts & _ & ->).
  cbn. by rewrite Hbad.
Qed.

(** X18: when every name has a target, [Depend] runs the targets in the
    order of the names and stops at the first that fails or panics:
    depending on two lists in a row is depending on the first and, if
    that returned nil, on the second in the world it left; depending on
    one name is executing its target, so a name given twice runs twice. *)
Theorem Depend_in_order (mf : Makefile) (names1 names2 : list string) (w : MWorld) :
  Forall (λ n, is_Some (Find mf n)) (names1 ++ names2) →
  Depend mf (names1 ++ names2) w
  = match Depend mf names1 w with
    | (Return None, w1) => Depend mf names2 w1
    | r => r
    end
  ∧ Forall (λ n, ∃ t, Find mf n = Some t
                    ∧ ∀ w0, Depend mf [n] w0 = exec t w0) (names1 ++ names2).
Proof.
  intros Hknown. split.
  - apply Forall_app in Hknown as [H1 H2].
    destruct (lookup_all_known mf names1 H1) as (ts1 & Hts1 & _).
    destruct (lookup_all_known mf names2 H2) as (ts2 & Hts2 & _).
    rewrite (Depend_known mf (names1 ++ names2) (ts1 ++ ts2))
      by by apply Forall2_app.
    rewrite (Depend_known mf names1 ts1) by done.
    rewrite exec_all_app.
    destruct (exec_all ts1 w) as [[[er|]|] w1]; [done| |done].
    by rewrite (Depend_known mf names2 ts2).
  - eapply Forall_impl; [exact Hknown|]. cbn. intros n [t Ht].
    exists t. split; [done|]. intros w0.
    rewrite (Depend_known mf [n] [t]) by by repeat constructor.
    cbn. by destruct (exec t w0) as [[[er|]|] w1].
Qed.

Variable showHelp : Makefile → MWorld → Makefile.Outcome * MWorld.

#[local] Abbreviation RunE := (Makefile.RunE strings_EqualFold showHelp).


End FindProperties.

Section NormalizeProperties.

Import Makefile.

Context {St : Type}.

#[local] Abbreviation MWorld := (@Makefile.MWorld St).
#[local] Abbreviation MakeTarget := (@Makefile.MakeTarget St).
#[local] Abbreviation Makefile := (@Makefile.Makefile St).

Variable strings_ToLower : string → string.

#[local] Abbreviation lowered :=
  (λ t : MakeTarget, strings_ToLower (Makefile.Name t)).

Lemma drop_duplicates_spec (ts : list MakeTarget) :
  ∀ (i : nat) (names : gset string) (kept : list MakeTarget) (w : MWorld),
  (∀ s, s ∈ names ↔ s ∈ lowered <$> kept) →
  NoDup (lowered <$> kept) →
  ∃ more,
    (drop_duplicates strings_ToLower ts i names kept w).1 = kept ++ more
    ∧ NoDup (lowered <$> kept ++ more)
    ∧ sublist more ts
    ∧ (∀ t, t ∈ more →
         ∃ before after, ts = before ++ t :: after
           ∧ Forall (λ u, lowered u ≠ lowered t) before
           ∧ lowered t ∉ lowered <$> kept)
    ∧ (∀ t, t ∈ ts → lowered t ∈ lowered <$> kept ++ more)
    ∧ state (drop_duplicates strings_ToLower ts i names kept w).2 = state w
    ∧ length (logged (drop_duplicates strings_ToLower ts i names kept w).2)
      + length more
      = length (logged w) + length ts.
Proof.
  induction ts as [|t ts IH]; intros i names kept w Hnames Hnd.
  - exists []. cbn. rewrite app_nil_r. repeat split; try done.
    + intros t Ht. by apply elem_of_nil in Ht.
    + intros t Ht. by apply elem_of_nil in Ht.
  - cbn [drop_duplicates]. destruct (decide (strings_ToLower (Name t) ∈ names)) as [Hin|Hout].
    + destruct (IH (S i) names kept
                  (log LevelWarn "[gnob] duplicate target"
                     [("name", AString (strings_ToLower (Name t))); ("index", AInt i)] w)
                  Hnames Hnd)
        as (more & -> & H1 & H2 & H3 & H4 & H5 & H6).
      exists more. split; [done|]. split; [done|]. split; [by apply sublist_cons|].
      split; [|split; [|split]].
      * intros t0 Ht0. destruct (H3 t0 Ht0) as (before & after & -> & Hb & Hk).
        exists (t :: before), after. split; [done|]. split; [|done].
        constructor; [|done]. intros Heq. apply Hk. rewrite <- Heq. by apply Hnames.
      * intros t0 [->|Ht0]%elem_of_cons; [|by apply H4].
        rewrite fmap_app. apply elem_of_app. left. by apply Hnames.
      * by rewrite H5.
      * rewrite H6. cbn. rewrite length_app. cbn. lia.
    + assert (lowered t ∉ lowered <$> kept) as Hout'.
      { intros H. by apply Hnames in H. }
      destruct (IH (S i) ({[strings_ToLower (Name t)]} ∪ names) (kept ++ [t]) w)
        as (more & -> & H1 & H2 & H3 & H4 & H5 & H6).
      * intros s. rewrite fmap_app, elem_of_app, elem_of_union, Hnames.
        cbn. rewrite elem_of_singleton, list_elem_of_singleton. tauto.
      * rewrite fmap_app. apply NoDup_app. split; [done|]. split.
        -- intros s Hs Hs'. cbn in Hs'. apply list_elem_of_singleton in Hs'. by subst.
        -- cbn. apply NoDup_singleton.
      * exists (t :: more). rewrite <- app_assoc in H1 |- *. cbn in H1 |- *.
        split; [done|]. split; [done|]. split; [by apply sublist_skip|].
        split; [|split; [|split]].
        -- intros t0 [->|Ht0]%elem_of_cons.
           ++ exists [], ts. by repeat split.
           ++ destruct (H3 t0 Ht0) as (before & after & -> & Hb & Hk).
              rewrite fmap_app, elem_of_app in Hk. cbn in Hk.
              exists (t :: before), after. split; [done|]. split.
              ** constructor; [|done]. intros Heq. apply Hk. right.
                 rewrite Heq. left.
              ** tauto.
        -- intros t0 [->|Ht0]%elem_of_cons.
           ++ rewrite fmap_app. apply elem_of_app. right. cbn. left.
           ++ specialize (H4 t0 Ht0). by rewrite <- app_assoc in H4.
        -- done.
        -- cbn [length]. lia.
Qed.

Lemma drop_duplicates_fresh (l1 : list MakeTarget) :
  ∀ (l2 : list MakeTarget) (i : nat) (names : gset string)
    (kept : list MakeTarget) (w : MWorld),
  (∀ s, s ∈ names ↔ s ∈ lowered <$> kept) →
  NoDup (lowered <$> kept ++ l1) →
  ∃ names',
    (∀ s, s ∈ names' ↔ s ∈ lowered <$> kept ++ l1)
    ∧ drop_duplicates strings_ToLower (l1 ++ l2) i names kept w
      = drop_duplicates strings_ToLower l2 (i + length l1) names' (kept ++ l1) w.
Proof.
  induction l1 as [|t l1 IH]; intros l2 i names kept w Hnames Hnd.
  - exists names. rewrite app_nil_r, Nat.add_0_r. done.
  - cbn [app drop_duplicates].
    replace (kept ++ t :: l1) with ((kept ++ [t]) ++ l1) in * by by rewrite <- app_assoc.
    assert (NoDup (lowered <$> kept ++ [t])) as Hnd1.
    { rewrite fmap_app in Hnd. by apply NoDup_app in Hnd as [Hnd _]. }
    destruct (decide (strings_ToLower (Name t) ∈ names)) as [Hin|Hout].
    + exfalso. apply Hnames in Hin. rewrite fmap_app in Hnd1.
      apply NoDup_app in Hnd1 as (_ & Hd & _). apply (Hd _ Hin). cbn. left.
    + destruct (IH l2 (S i) ({[strings_ToLower (Name t)]} ∪ names) (kept ++ [t]) w)
        as (names' & Hn' & ->); [|done|].
      * intros s. rewrite fmap_app, elem_of_app, elem_of_union, Hnames.
        cbn. rewrite elem_of_singleton, list_elem_of_singleton. tauto.
      * exists names'. split; [done|]. cbn [length]. f_equal. lia.
Qed.

Lemma first_default_spec (ts : list MakeTarget) (i : nat) :
  match first_default ts i with
  | Some j => ∃ k t, j = i + k ∧ ts !! k = Some t ∧ Default t = true
                     ∧ Forall (λ u, Default u = false) (take k ts)
  | None => Forall (λ u, Default u = false) ts
  end.
Proof.
  revert i. induction ts as [|t ts IH]; intros i; cbn; [done|].
  destruct (Default t) eqn:Ht.
  - exists 0, t. cbn. repeat split; [lia|done|done].
  - specialize (IH (S i)). destruct (first_default ts (S i)) as [j|].
    + destruct IH as (k & u & -> & Hk & Hu & Hb). exists (S k), u. cbn.
      repeat split; [lia|done|done|by constructor].
    + by constructor.
Qed.

Variable slices_SortFunc :
  (MakeTarget → MakeTarget → Z) → list MakeTarget → list MakeTarget.

#[local] Abbreviation normalize := (Makefile.normalize strings_ToLower slices_SortFunc).
#[local] Abbreviation NewEx := (Makefile.NewEx strings_ToLower slices_SortFunc).
#[local] Abbreviation Add := (Makefile.Add strings_ToLower slices_SortFunc).

Hypothesis slices_SortFunc_perm : ∀ cmp l, slices_SortFunc cmp l ≡ₚ l.

Lemma normalize_targets (mf : Makefile) (w : MWorld) :
  targets (normalize mf w).1
  = slices_SortFunc by_default_then_name
      (drop_duplicates strings_ToLower (targets mf) 0 ∅ [] w).1
  ∧ (normalize mf w).2 = (drop_duplicates strings_ToLower (targets mf) 0 ∅ [] w).2
  ∧ name (normalize mf w).1 = name mf
  ∧ args (normalize mf w).1 = args mf
  ∧ commandArgs (normalize mf w).1 = commandArgs mf.
Proof.
  unfold Makefile.normalize.
  destruct (drop_duplicates strings_ToLower (targets mf) 0 ∅ [] w) as [kept w1].
  cbn. by destruct (first_default _ 0).
Qed.

Lemma normalize_defaultTarget (mf : Makefile) (w : MWorld) :
  match first_default (targets (normalize mf w).1) 0 with
  | Some i => defaultTarget (normalize mf w).1 = i
  | None => defaultTarget (normalize mf w).1 = 0
  end.
Proof.
  unfold Makefile.normalize.
  destruct (drop_duplicates strings_ToLower (targets mf) 0 ∅ [] w) as [kept w1].
  cbn [fst targets set_targets set_defaultTarget].
  destruct (first_default (slices_SortFunc by_default_then_name kept) 0) eqn:H;
    cbn; by rewrite H.
Qed.

(** X20: [normalize] keeps, of the targets whose names are equal once
    lowered, the first one only, and warns once for each target it drops:
    the names of the targets kept are pairwise different once lowered,
    each target kept is a target given with no earlier target of that
    lowered name, each target given has a target of its lowered name
    kept, and the logger is called once per dropped target. *)
Theorem normalize_distinct_names (mf : Makefile) (w : MWorld) :
  let mf' := (normalize mf w).1 in
  let w' := (normalize mf w).2 in
  NoDup (lowered <$> targets mf')
  ∧ (∀ t, t ∈ targets mf' →
       ∃ before after, targets mf = before ++ t :: after
         ∧ Forall (λ u, lowered u ≠ lowered t) before)
  ∧ (∀ t, t ∈ targets mf →
       ∃ t', t' ∈ targets mf' ∧ lowered t' = lowered t)
  ∧ state w' = state w
  ∧ length (logged w') + length (targets mf') = length (logged w) + length (targets mf)
  ∧ name mf' = name mf ∧ args mf' = args mf ∧ commandArgs mf' = commandArgs mf.
Proof.
  intros mf' w'. subst mf' w'.
  destruct (normalize_targets mf w) as (Ht & Hw & Hn & Ha & Hc).
  rewrite Ht, Hw.
  destruct (drop_duplicates_spec (targets mf) 0 ∅ [] w)
    as (more & Hk & H1 & H2 & H3 & H4 & H5 & H6); [set_solver|constructor|].
  cbn in Hk, H1, H4. rewrite Hk.
  pose proof (slices_SortFunc_perm by_default_then_name more) as Hperm.
  split; [by rewrite Hperm|]. split; [|split; [|split; [|split]]].
  - intros t Ht'. rewrite Hperm in Ht'.
    destruct (H3 t Ht') as (before & after & Heq & Hb & _). eauto.
  - intros t Ht'. specialize (H4 t Ht').
    apply list_elem_of_fmap in H4 as (t' & Heq & Hin).
    exists t'. split; [by rewrite Hperm|done].
  - done.
  - rewrite Hperm. done.
  - done.
Qed.

(** X21: adding targets to a makefile whose targets have pairwise
    different lowered names keeps every one of them and never warns about
    them; of the targets added, those kept are named like no earlier
    target, and an added target named like an existing one is dropped. *)
Theorem Add_keeps_existing (mf : Makefile) (tgts : list MakeTarget) (w : MWorld) :
  NoDup (lowered <$> targets mf) →
  ∃ more,
    targets (Add mf tgts w).1 ≡ₚ targets mf ++ more
    ∧ sublist more tgts
    ∧ NoDup (lowered <$> targets mf ++ more)
    ∧ (∀ t, t ∈ tgts → lowered t ∈ lowered <$> targets mf → t ∉ more)
    ∧ length (logged (Add mf tgts w).2) + length more
      = length (logged w) + length tgts.
Proof.
  intros Hnd. unfold Makefile.Add.
  destruct (normalize_targets (set_targets (targets mf ++ tgts) mf) w)
    as (Ht & Hw & _).
  rewrite Ht, Hw. cbn [targets set_targets].
  destruct (drop_duplicates_fresh (targets mf) tgts 0 ∅ [] w)
    as (names' & Hn' & Heq); [set_solver|done|].
  cbn [app Nat.add] in Hn', Heq. rewrite Heq.
  destruct (drop_duplicates_spec tgts (length (targets mf)) names' (targets mf) w Hn' Hnd)
    as (more & -> & H1 & H2 & H3 & H4 & H5 & H6).
  exists more. split; [apply slices_SortFunc_perm|]. split; [done|].
  split; [done|]. split; [|done].
  intros t Ht' Hin Hm. destruct (H3 t Hm) as (_ & _ & _ & _ & Hk). done.
Qed.

Variable strings_EqualFold : string → string → bool.
Variable showHelp : Makefile → MWorld → Makefile.Outcome * MWorld.

#[local] Abbreviation RunE := (Makefile.RunE strings_EqualFold showHelp).

(** X22: the default target of a makefile built by [NewEx].  With no
    target at all, running the makefile without arguments panics on the
    index.  Otherwise it executes one of the targets given: the first of
    the kept targets marked [Default] if there is one, and the first kept
    target if none is marked. *)
Theorem NewEx_default_target (nm : string) (ts : list MakeTarget) (w : MWorld) :
  let mf := (NewEx nm [] ts w).1 in
  (ts = [] → ∀ w2, RunE mf w2 = (GoPanic, mf, w2))
  ∧ (ts ≠ [] →
     ∃ t, t ∈ ts
        ∧ targets mf !! defaultTarget mf = Some t
        ∧ (∀ w2, RunE mf w2 = ((exec t w2).1, mf, (exec t w2).2))
        ∧ ((∃ u, u ∈ targets mf ∧ Default u = true) →
           Default t = true
           ∧ Forall (λ u, Default u = false) (take (defaultTarget mf) (targets mf)))
        ∧ ((∀ u, u ∈ targets mf → Default u = false) → defaultTarget mf = 0)).
Proof.
  intros mf. subst mf. unfold Makefile.NewEx.
  set (mf0 := mkMakefile nm [] [] ts 0).
  destruct (normalize_targets mf0 w) as (Ht & _ & _ & Ha & _).
  pose proof (normalize_defaultTarget mf0 w) as Hd.
  destruct (drop_duplicates_spec (targets mf0) 0 ∅ [] w)
    as (more & Hk & _ & Hsub & H3 & H4 & _); [set_solver|constructor|].
  change (targets mf0) with ts in *.
  cbn in Hk, H4. rewrite Hk in Ht.
  pose proof (slices_SortFunc_perm by_default_then_name more) as Hperm.
  rewrite <- Ht in Hperm.
  assert (∀ mf1 t w2, args mf1 = [] → targets mf1 !! defaultTarget mf1 = Some t →
            RunE mf1 w2 = ((exec t w2).1, mf1, (exec t w2).2)) as Hrun.
  { intros mf1 t w2 Hargs Hlook. unfold Makefile.RunE, runDefault.
    rewrite Hargs, Hlook. by destruct (exec t w2). }
  assert (∀ mf1 w2, args mf1 = [] → targets mf1 = [] →
            RunE mf1 w2 = (GoPanic, mf1, w2)) as Hpanic.
  { intros mf1 w2 Hargs Hnil. unfold Makefile.RunE, runDefault.
    by rewrite Hargs, Hnil. }
  assert (args (normalize mf0 w).1 = []) as Hargs by by rewrite Ha.
  split.
  - intros Hnil w2. apply Hpanic; [done|].
    rewrite Hnil in Hsub. apply sublist_nil_r in Hsub. rewrite Hsub in Hperm.
    by apply Permutation_nil_r in Hperm.
  - intros Hne.
    assert (∃ t0, t0 ∈ targets (normalize mf0 w).1) as (t0 & Ht0).
    { destruct ts as [|t1 ts]; [done|].
      specialize (H4 t1 ltac:(left)).
      apply list_elem_of_fmap in H4 as (t' & _ & Hin).
      exists t'. by rewrite Hperm. }
    pose proof (first_default_spec (targets (normalize mf0 w).1) 0) as Hfd.
    destruct (first_default (targets (normalize mf0 w).1) 0) as [j|].
    + destruct Hfd as (k & t & -> & Hk' & Hdt & Hb). cbn in Hd.
      exists t. rewrite Hd.
      assert (t ∈ ts) as Hin.
      { apply list_elem_of_lookup_2 in Hk'. rewrite Hperm in Hk'.
        eapply elem_of_sublist; done. }
      split; [done|]. split; [done|].
      split; [intros w2; apply Hrun; [done|by rewrite Hd]|].
      split; [done|].
      intros Hnone. apply list_elem_of_lookup_2 in Hk'.
      specialize (Hnone t Hk'). congruence.
    + destruct (targets (normalize mf0 w).1) as [|t rest] eqn:Hts.
      { by apply elem_of_nil in Ht0. }
      exists t. rewrite Hd. cbn.
      assert (t ∈ ts) as Hin.
      { assert (t ∈ more) as Hm by (rewrite <- Hperm; left).
        eapply elem_of_sublist; done. }
      split; [done|]. split; [done|].
      split; [intros w2; apply Hrun; [done|by rewrite Hd, Hts]|].
      split; [|done].
      intros (u & Hu & Hdu). rewrite Forall_forall in Hfd.
      specialize (Hfd u Hu). congruence.
Qed.

End NormalizeProperties.

(** * Targets guarded by timestamps *)

Section GuardedTargets.

Import Makefile.

Context {FS : Type}.
Variable os_Stat : FS → string → Files.Time + error.
Variable filepath_Glob : FS → string → list string + error.

(** X23: a target whose [UpToDate] is [FileUpToDate target sources], run
    where every pattern is well formed: its body is called exactly when
    the target file carries a time before the zero time or some matched
    source is later than the target file, a file that cannot be examined
    counting as the zero time; otherwise [exec] returns nil without
    calling the body and logs that the target is up to date.  So a target
    file that does not exist does not make the body run when no source
    matches. *)
Theorem exec_FileUpToDate (mt : @MakeTarget FS) (target : string)
    (sources all : list string) (w : @MWorld FS) :
  UpToDate mt
  = Some (λ w, (Files.FileUpToDate os_Stat filepath_Glob target sources (state w), w)) →
  Files.all_matches filepath_Glob (state w) sources = Some all →
  let stale :=
    (Files.modTime os_Stat (state w) target < Files.zero_Time)%Z
    ∨ ∃ p, p ∈ all
         ∧ (Files.modTime os_Stat (state w) target < Files.modTime os_Stat (state w) p)%Z in
  let w1 := log LevelDebug "[gnob:makefile] execute target"
              [("target", AString (Name mt))] w in
  (stale → exec mt w = run_body mt w1)
  ∧ (¬ stale →
     exec mt w
     = (Return None,
        log LevelInfo "[gnob:makefile] target is up-to-date"
          [("target", AString (Name mt))] w1))
  ∧ (Files.Exists os_Stat (state w) target = false → all = [] → ¬ stale).
Proof.
  intros Hup Hall stale w1.
  pose proof (TargetNeedsUpdate_spec os_Stat filepath_Glob (state w) target
                sources all Hall) as Hiff.
  fold stale in Hiff.
  assert (exec mt w
          = if Files.TargetNeedsUpdate os_Stat filepath_Glob (state w) target sources
            then run_body mt w1
            else (Return None,
                  log LevelInfo "[gnob:makefile] target is up-to-date"
                    [("target", AString (Name mt))] w1)) as Hexec.
  { unfold exec. rewrite Hup. cbn. unfold Files.FileUpToDate.
    by destruct (Files.TargetNeedsUpdate _ _ _ _ _). }
  split; [|split].
  - intros Hs. apply Hiff in Hs. by rewrite Hexec, Hs.
  - intros Hs. rewrite Hexec.
    destruct (Files.TargetNeedsUpdate _ _ _ _ _); [|done].
    exfalso. apply Hs. by apply Hiff.
  - intros Hmiss -> [Hlt|(p & Hp & _)].
    + unfold Files.Exists in Hmiss. unfold Files.modTime in Hlt.
      destruct (os_Stat (state w) target); [done|]. unfold Files.zero_Time in Hlt. lia.
    + by apply elem_of_nil in Hp.
Qed.

End GuardedTargets.

(** * The properties on examples *)

Lemma WithEnvVars_merge_witness :
  envVars (apply (ExecOptions [WithEnvVars range_sorted {["X" := "1"]};
                               WithEnvVars range_sorted {["X" := "2"; "Y" := "3"]}])
             (zero_cmdOptions (V := list byte))) !! "X" = Some "2".
Proof.
  destruct (WithEnvVars_merge range_sorted range_sorted_perm {["X" := "1"]}
              {["X" := "2"; "Y" := "3"]} (zero_cmdOptions (V := list byte)))
    as (_ & _ & H & _).
  apply H. by vm_compute.
Defined.

Lemma PipeOpt_successor_witness :
  let p := built (ExecOpt range_sorted 1 (Some (WithStdout (WUser 7 true))) "gen" []) in
  let r := (built capture_then_pipe).1 in
  PipeOpt range_sorted p.1 None "wc" ["-c"] p.2 = Ok r (built capture_then_pipe).2
  ∧ Stdin (cmd r) = Some (TeeReader (RFile 3) (WUser 7 true))
  ∧ Args (cmd r) = ["wc"; "-c"].
Proof.
  intros p r.
  assert (PipeOpt range_sorted p.1 None "wc" ["-c"] p.2 = Ok r (built capture_then_pipe).2)
    as H by by vm_compute.
  split; [exact H|].
  destruct (PipeOpt_successor range_sorted _ _ _ _ _ _ _ H)
    as (next & w1 & _ & _ & Hin & Hargs & _).
  split; [exact Hin|exact Hargs].
Defined.

Lemma PipeOpt_chain_witness :
  let p := built (ExecOpt range_sorted 1 (Some (WithStdout (WUser 7 true))) "gen" []) in
  let r := (built capture_then_pipe).1 in
  PipeOpt range_sorted p.1 None "wc" ["-c"] p.2 = Ok r (built capture_then_pipe).2
  ∧ length (chain_of r) = 2.
Proof.
  intros p r.
  assert (PipeOpt range_sorted p.1 None "wc" ["-c"] p.2 = Ok r (built capture_then_pipe).2)
    as H by by vm_compute.
  split; [exact H|].
  destruct (PipeOpt_chain range_sorted _ _ _ _ _ _ _ H) as (e' & _ & Hlen & _).
  exact Hlen.
Defined.

Lemma Pipe2Opt_link_witness :
  let p := built (ExecOpt range_sorted 1 (Some (WithStderr (WUser 7 true))) "gen" []) in
  let r := (built capture_then_pipe2).1 in
  Pipe2Opt range_sorted p.1 None "wc" ["-c"] p.2 = Ok r (built capture_then_pipe2).2
  ∧ Stdin (cmd r) = Some (TeeReader (RFile 3) (WUser 7 true))
  ∧ ctx r = 1.
Proof.
  intros p r.
  assert (Pipe2Opt range_sorted p.1 None "wc" ["-c"] p.2 = Ok r (built capture_then_pipe2).2)
    as H by by vm_compute.
  split; [exact H|].
  destruct (Pipe2Opt_link range_sorted _ _ _ _ _ _ _ H)
    as (next & w1 & e' & _ & Hcmd & Hctx & _).
  split; [by rewrite Hcmd|exact Hctx].
Defined.

Lemma Run_spawn_failure_witness :
  let e := (built two_stages).1 in
  let w := (built two_stages).2 in
  (Start (spawn_but "b") e w).1.1
  = Some (errorString "executable file not found in $PATH")
  ∧ Run (spawn_but "b") head_fails e w = Start (spawn_but "b") e w
  ∧ ExitCodes (Run (spawn_but "b") head_fails e w).1.2 = [].
Proof.
  intros e w.
  assert ((Start (spawn_but "b") e w).1.1
          = Some (errorString "executable file not found in $PATH")) as H
    by by vm_compute.
  split; [exact H|].
  destruct (Run_spawn_failure (spawn_but "b") head_fails e w _ H) as (H1 & _ & H2 & _).
  split; [exact H1|exact H2].
Defined.

Lemma Wait_error_exit_status_witness :
  let r := (built two_stages).1 in
  let w := (built two_stages).2 in
  (Wait head_fails r w).1.1 ≫= errors_As_ExitError = Some 1%Z
  ∧ ExitCode (Wait head_fails r w).1.2 = 0%Z.
Proof.
  intros r w.
  assert (Forall2 (λ (st : nat * Exec) x, head_fails st.1 = Received x)
            (visit_order (chain_of r))
            [mkExit [] [] (exit_status 1); mkExit [] [] (exit_status 0)]) as H.
  { vm_compute. repeat constructor. }
  split; [|by vm_compute].
  exact (Wait_error_exit_status head_fails r w _ H).
Defined.

Lemma ExitCode_after_Wait_witness :
  let r := (built two_stages).1 in
  let w := (built two_stages).2 in
  ExitCode (Wait head_fails r w).1.2 = 0%Z
  ∧ length (ExitCodes (Wait head_fails r w).1.2) = 2.
Proof.
  intros r w.
  assert (Forall2 (λ (st : nat * Exec) x, head_fails st.1 = Received x)
            (visit_order (chain_of r))
            [mkExit [] [] (exit_status 1); mkExit [] [] (exit_status 0)]) as H.
  { vm_compute. repeat constructor. }
  destruct (ExitCode_after_Wait head_fails r w _ H) as (x & Hx & _ & Hcode & Hlen & _).
  split; [|exact Hlen].
  rewrite Hcode. vm_compute in Hx. injection Hx as <-. reflexivity.
Defined.

Lemma Wait_closes_and_reaps_witness :
  let r := (built capture_then_pipe).1 in
  let w := (built capture_then_pipe).2 in
  closed (Wait (exits (λ _, 0%Z)) r w).2 = [CUser 7; CFile 4]
  ∧ reaped (Wait (exits (λ _, 0%Z)) r w).2 = cmd <$> head_to_tail r.
Proof.
  intros r w.
  destruct (Wait_closes_and_reaps (exits (λ _, 0%Z)) r w
              [mkExit [] [] None; mkExit [] [] None]) as (Hc & Hr & _).
  - vm_compute. repeat constructor.
  - vm_compute. repeat constructor.
  - split; [exact Hc|exact Hr].
Defined.

Lemma Run_error_diagnostics_witness :
  let r := (built two_stages).1 in
  let w := (built two_stages).2 in
  (Run spawn_all head_fails r w).1.1
  = Some (wrapError ["b"] (joinError [ExitError 1]) []).
Proof.
  intros r w.
  destruct (Run_error_diagnostics spawn_all head_fails r w
              [mkExit [] [] (exit_status 1); mkExit [] [] (exit_status 0)])
    as (x & Hx & Herr).
  - done.
  - vm_compute. repeat constructor.
  - vm_compute. repeat constructor.
  - rewrite Herr. injection Hx as <-. by vm_compute.
Defined.

Lemma decoder_and_WithStdout_witness :
  let d := match WithStdoutJSONDecoder keep_raw 100 world0 with
           | Ok dec w1 => (dec, w1)
           | Panic _ => (ExecOptions [], world0)
           end in
  let s := built (λ _, ExecOpt range_sorted 1
                         (Some (ExecOptions [d.1; WithStdout (WUser 7 true)]))
                         "jq" ["."] d.2) in
  Stdout (cmd s.1) = Some (WUser 7 true)
  ∧ vars (Run spawn_all (prints "{}") s.1 s.2).2 !! 100 = Some [].
Proof.
  intros d s.
  destruct (decoder_and_WithStdout range_sorted spawn_all keep_raw 100 1 (WUser 7 true)
              "jq" ["."] world0 d.2 s.2 d.1 s.1 (prints "{}")
              (mkExit (bytes_of "{}") [] None) [])
    as (Hout & _ & _ & Hvar & _).
  - by vm_compute.
  - by vm_compute.
  - by vm_compute.
  - done.
  - done.
  - by vm_compute.
  - split; [exact Hout|exact Hvar].
Defined.

Lemma LatestTimestamp_greatest_witness :
  Forall (λ p, (Files.modTime Files.disk_Stat Files.disk0 p
                ≤ Files.LatestTimestamp Files.disk_Stat Files.disk_Glob Files.disk0
                    ["a.go"; "missing"; "b.go"])%Z)
    ["a.go"; "b.go"].
Proof.
  destruct (LatestTimestamp_greatest Files.disk_Stat Files.disk_Glob Files.disk0
              ["a.go"; "missing"; "b.go"] ["a.go"; "b.go"]) as (_ & H & _).
  - by vm_compute.
  - exact H.
Defined.

Lemma LatestTimestamp_glob_error_witness :
  Files.LatestTimestamp Files.disk_Stat Files.disk_Glob Files.disk0 ["b.go"; "["]
  = Files.zero_Time
  ∧ Files.FileUpToDate Files.disk_Stat Files.disk_Glob "gnob" ["b.go"; "["] Files.disk0
    = true.
Proof.
  destruct (LatestTimestamp_glob_error Files.disk_Stat Files.disk_Glob Files.disk0
              "gnob" ["b.go"; "["]) as (H0 & Hup).
  - apply Exists_cons_tl, Exists_cons_hd. eexists. by vm_compute.
  - split; [exact H0|]. apply Hup. by vm_compute.
Defined.

Lemma TargetNeedsUpdate_iff_witness :
  Files.TargetNeedsUpdate Files.disk_Stat Files.disk_Glob Files.disk0 "gnob"
    ["a.go"; "b.go"] = true
  ∧ Files.FileUpToDate Files.disk_Stat Files.disk_Glob "out" ["missing"] Files.disk0
    = true.
Proof.
  split.
  - destruct (TargetNeedsUpdate_iff Files.disk_Stat Files.disk_Glob Files.disk0 "gnob"
                ["a.go"; "b.go"] ["a.go"; "b.go"]) as (Hiff & _); [by vm_compute|].
    apply Hiff. right. exists "b.go". split; [right; left|by vm_compute].
  - destruct (TargetNeedsUpdate_iff Files.disk_Stat Files.disk_Glob Files.disk0 "out"
                ["missing"] []) as (_ & Hmiss); [by vm_compute|].
    destruct Hmiss as (_ & Hup); [by vm_compute|]. by apply Hup.
Defined.

Lemma insert_sorted_perm {A} (cmp : A → A → Z) (x : A) (l : list A) :
  Makefile.insert_sorted cmp x l ≡ₚ x :: l.
Proof.
  induction l as [|y l IH]; cbn; [done|].
  destruct (bool_decide _); [done|]. rewrite IH. apply Permutation_swap.
Qed.

Lemma insertion_sort_perm {A} (cmp : A → A → Z) (l : list A) :
  Makefile.insertion_sort cmp l ≡ₚ l.
Proof.
  induction l as [|x l IH]; cbn; [done|].
  rewrite insert_sorted_perm. by rewrite IH.
Qed.

Lemma Depend_unknown_name_witness :
  Makefile.Depend Makefile.ascii_EqualFold Makefile.makefile0 ["build"; "deploy"; "test"] Makefile.mworld0
  = (Makefile.Return (Some (Makefile.unknown_target "deploy")), Makefile.mworld0).
Proof.
  apply (Depend_unknown_name Makefile.ascii_EqualFold Makefile.makefile0 ["build"] "deploy" ["test"] Makefile.mworld0).
  - repeat constructor. eexists. by vm_compute.
  - by vm_compute.
Defined.

Lemma Depend_in_order_witness :
  Makefile.state (Makefile.Depend Makefile.ascii_EqualFold Makefile.makefile0 (["build"] ++ ["TEST"; "build"]) Makefile.mworld0).2 = 3.
Proof.
  destruct (Depend_in_order Makefile.ascii_EqualFold Makefile.makefile0 ["build"] ["TEST"; "build"] Makefile.mworld0)
    as (H & _).
  - repeat constructor; eexists; by vm_compute.
  - rewrite H. by vm_compute.
Defined.


Lemma normalize_distinct_names_witness :
  let mf := Makefile.mkMakefile "gnob" [] [] Makefile.some_targets 0 in
  NoDup ((λ t, Makefile.ascii_ToLower (Makefile.Name t))
           <$> Makefile.targets (Makefile.normalize Makefile.ascii_ToLower Makefile.insertion_sort mf Makefile.mworld0).1)
  ∧ length (Makefile.logged (Makefile.normalize Makefile.ascii_ToLower Makefile.insertion_sort mf Makefile.mworld0).2)
    + length (Makefile.targets (Makefile.normalize Makefile.ascii_ToLower Makefile.insertion_sort mf Makefile.mworld0).1)
    = 0 + 4.
Proof.
  intros mf.
  destruct (normalize_distinct_names Makefile.ascii_ToLower Makefile.insertion_sort
              (@insertion_sort_perm _) mf Makefile.mworld0) as (Hnd & _ & _ & _ & Hlen & _).
  split; [exact Hnd|exact Hlen].
Defined.

Lemma NewEx_default_target_witness :
  ∃ t, Makefile.targets Makefile.makefile0 !! Makefile.defaultTarget Makefile.makefile0 = Some t ∧ Makefile.Default t = true.
Proof.
  destruct (NewEx_default_target Makefile.ascii_ToLower Makefile.insertion_sort (@insertion_sort_perm _)
              Makefile.ascii_EqualFold Makefile.no_help "gnob" Makefile.some_targets Makefile.mworld0) as (_ & H).
  destruct H as (t & _ & Hlook & _ & Hdef & _); [done|].
  exists t. split; [exact Hlook|]. apply Hdef.
  exists (Makefile.counting "build" true). split; [|done]. vm_compute. left.
Defined.

Lemma Add_keeps_existing_witness :
  length (Makefile.targets (Makefile.Add Makefile.ascii_ToLower Makefile.insertion_sort Makefile.makefile0
                     [Makefile.counting "BUILD" false; Makefile.counting "lint" false] Makefile.mworld0).1) = 4.
Proof.
  destruct (Add_keeps_existing Makefile.ascii_ToLower Makefile.insertion_sort (@insertion_sort_perm _)
              Makefile.makefile0 [Makefile.counting "BUILD" false; Makefile.counting "lint" false] Makefile.mworld0)
    as (more & Hperm & _).
  - apply (bool_decide_unpack _). by vm_compute.
  - by vm_compute.
Defined.

Lemma exec_FileUpToDate_witness :
  let w := Makefile.mkMWorld Files.disk0 [] in
  (Makefile.exec (Makefile.rebuilt "gnob" ["a.go"; "b.go"] 10%Z) w).1 = Makefile.Return None
  ∧ Makefile.state (Makefile.exec (Makefile.rebuilt "gnob" ["a.go"; "b.go"] 10%Z) w).2 !! "gnob" = Some 10%Z.
Proof.
  intros w.
  destruct (exec_FileUpToDate Files.disk_Stat Files.disk_Glob
              (Makefile.rebuilt "gnob" ["a.go"; "b.go"] 10%Z) "gnob" ["a.go"; "b.go"]
              ["a.go"; "b.go"] w) as (Hstale & _).
  - done.
  - by vm_compute.
  - rewrite Hstale; [by vm_compute|].
    right. exists "b.go". split; [right; left|by vm_compute].
Defined.
